(** * The tree-model schema of the engine: [SchemaItem] and [Schema]

    A shallow embedding of [treemodel/schema.js].  JavaScript arrays of
    names are mutable and may be aliased, so they live in a store and are
    handled through locations; the two [Map]s of the schema are finite
    maps; a method is a computation in a state-and-exception monad over
    the store and the schema. *)

From Stdlib Require Import ZArith Ascii String.
From stdpp Require Import base option list gmap strings.

Local Open Scope nat_scope.

(** ** Values, errors and the store *)

(** What a call can throw.  [CKEditorError] carries its message;
    [TypeError] is what the engine raises on a property access on
    [undefined].  [DanglingReference] is not JavaScript behaviour: it
    marks the use of a reference, to an array or to an item, that was
    never created, which no JavaScript program can form. *)
Inductive error : Type :=
  | CKEditorError (message : string)
  | TypeError
  | DanglingReference.

Inductive result (A : Type) : Type :=
  | Ok (a : A)
  | Throw (e : error).
Arguments Ok {A} a.
Arguments Throw {A} e.

(** A location of an array of names in the store. *)
Abbreviation loc := nat (only parsing).

(** One registered path of a [SchemaItem]: the object [{ path, attribute }]
    pushed by [_addPath].  [path] is a reference to an array; [attribute]
    is [None] for [undefined]. *)
Record PathEntry : Type := mkPathEntry {
  path : loc;
  attribute : option string
}.

Record SchemaItem : Type := mkSchemaItem {
  _allowed : list PathEntry;
  _disallowed : list PathEntry
}.

Record Schema : Type := mkSchema {
  _items : gmap string SchemaItem;
  _extensionChains : gmap string (list string)
}.

(** The state a call runs in: the schema instance and the store of
    arrays.  The [_schema] back-reference of every item is this schema. *)
Record World : Type := mkWorld {
  schema : Schema;
  arrays : list (list string)
}.

Definition set_arrays (f : list (list string) → list (list string)) (w : World) : World :=
  mkWorld (schema w) (f (arrays w)).

Definition set_items (f : gmap string SchemaItem → gmap string SchemaItem) (w : World) : World :=
  mkWorld (mkSchema (f (_items (schema w))) (_extensionChains (schema w))) (arrays w).

Definition set_chains (f : gmap string (list string) → gmap string (list string)) (w : World) : World :=
  mkWorld (mkSchema (_items (schema w)) (f (_extensionChains (schema w)))) (arrays w).

(** ** The monad of method calls *)

Definition M (A : Type) : Type := World → result A * World.

#[global] Instance M_ret : MRet M := λ A a w, (Ok a, w).

#[global] Instance M_bind : MBind M := λ A B f m w,
  match m w with
  | (Ok a, w') => f a w'
  | (Throw e, w') => (Throw e, w')
  end.

Definition throw {A : Type} (e : error) : M A := λ w, (Throw e, w).

Definition modify (f : World → World) : M unit := λ w, (Ok (), f w).

(** ** Array primitives *)

(** An array literal, [slice], [split] or [concat] result: a new array. *)
Definition alloc (v : list string) : M loc :=
  λ w, (Ok (length (arrays w)), set_arrays (λ h, h ++ [v]) w).

Definition read (l : loc) : M (list string) :=
  λ w, match arrays w !! l with
       | Some v => (Ok v, w)
       | None => (Throw DanglingReference, w)
       end.

Definition write (l : loc) (v : list string) : M unit :=
  λ w, match arrays w !! l with
       | Some _ => (Ok (), set_arrays (λ h, <[l := v]> h) w)
       | None => (Throw DanglingReference, w)
       end.

(** [a.slice()] *)
Definition slice (l : loc) : M loc := v ← read l; alloc v.

(** [a.shift()]: drops the first element in place (nothing on an empty array). *)
Definition shift (l : loc) : M unit := v ← read l; write l (tail v).

(** [a.push( x )] *)
Definition push (l : loc) (x : string) : M unit := v ← read l; write l (v ++ [x]).

(** [a.reverse()], in place. *)
Definition reverse_in_place (l : loc) : M unit := v ← read l; write l (rev v).

(** [a.indexOf( x )] where [x] may be [undefined]: the first index holding
    [x], or [-1].  An array of names holds no [undefined]. *)
Fixpoint indexOf_from (v : list string) (x : string) (i : Z) : Z :=
  match v with
  | [] => (-1)%Z
  | y :: v' => if bool_decide (y = x) then i else indexOf_from v' x (i + 1)%Z
  end.

Definition indexOf (v : list string) (x : option string) : Z :=
  match x with
  | Some s => indexOf_from v s 0%Z
  | None => (-1)%Z
  end.

(** [s.split( ' ' )]: one piece more than there are spaces. *)
Fixpoint split (s : string) : list string :=
  match s with
  | EmptyString => [EmptyString]
  | String c s' =>
      match split s' with
      | [] => [EmptyString]
      | piece :: pieces =>
          if bool_decide (c = " "%char) then EmptyString :: piece :: pieces
          else String c piece :: pieces
      end
  end.

(** ** SchemaItem *)

(** The two values of the [type] argument of [_getPaths]. *)
Inductive PathType : Type := ALLOW | DISALLOW.

(** The [path] argument of [_addPath], and [query.inside]: a string of
    names separated by spaces, or an array of names. *)
Inductive PathArg : Type :=
  | PathString (s : string)
  | PathArray (l : loc).

(** The [member] argument of [_addPath]. *)
Inductive Member : Type := M_allowed | M_disallowed.

Definition push_member (member : Member) (e : PathEntry) (item : SchemaItem) : SchemaItem :=
  match member with
  | M_allowed => mkSchemaItem (_allowed item ++ [e]) (_disallowed item)
  | M_disallowed => mkSchemaItem (_allowed item) (_disallowed item ++ [e])
  end.

(** A reference to a [SchemaItem] object.  The schema creates one item
    per registered name and never replaces it, so the name it is
    registered under identifies the object. *)
Abbreviation ItemRef := string (only parsing).

Definition this_item (this : ItemRef) : M SchemaItem :=
  λ w, match _items (schema w) !! this with
       | Some item => (Ok item, w)
       | None => (Throw DanglingReference, w)
       end.

(** [_addPath( member, path, attribute )] *)
Definition _addPath (this : ItemRef) (member : Member) (p : PathArg)
    (attr : option string) : M unit :=
  p1 ← match p with
       | PathString s => alloc (split s)
       | PathArray l => mret l
       end;
  p2 ← slice p1;
  item ← this_item this;
  modify (set_items (<[this := push_member member (mkPathEntry p2 attr) item]>)).

Definition addAllowed (this : ItemRef) (p : PathArg) (attr : option string) : M unit :=
  _addPath this M_allowed p attr.

Definition addDisallowed (this : ItemRef) (p : PathArg) (attr : option string) : M unit :=
  _addPath this M_disallowed p attr.

(** The loop of [_getPaths] over [source]: every entry registered for
    [attr] contributes a copy of its path. *)
Fixpoint _getPaths_loop (source : list PathEntry) (attr : option string)
    (paths : list loc) : M (list loc) :=
  match source with
  | [] => mret paths
  | item :: source' =>
      if bool_decide (attribute item = attr) then
        copy ← slice (path item);
        _getPaths_loop source' attr (paths ++ [copy])
      else _getPaths_loop source' attr paths
  end.

(** [type === 'ALLOW' ? this._allowed : this._disallowed] *)
Definition source_of (item : SchemaItem) (type : PathType) : list PathEntry :=
  match type with
  | ALLOW => _allowed item
  | DISALLOW => _disallowed item
  end.

Definition _getPaths (this : ItemRef) (type : PathType) (attr : option string)
    : M (list loc) :=
  item ← this_item this;
  _getPaths_loop (source_of item type) attr [].

(** [this._schema._extensionChains.get( name )], [None] for [undefined].
    [registerItem] may call it on [null], which is no key of the map. *)
Definition getChain (name : option string) : M (option (list string)) :=
  λ w, (Ok (n ← name; _extensionChains (schema w) !! n), w).

(** The body of the inner loop of [_hasMatchingPath]. *)
Definition checkName_step (itemPath : loc) (checkName : string) : M unit :=
  chain ← getChain (Some checkName);
  match chain with
  | None => throw TypeError
  | Some chain =>
      v ← read itemPath;
      if (-1 <? indexOf chain (head v))%Z then shift itemPath else mret ()
  end.

Fixpoint checkPath_loop (itemPath : loc) (names : list string) : M unit :=
  match names with
  | [] => mret ()
  | checkName :: names' =>
      checkName_step itemPath checkName;; checkPath_loop itemPath names'
  end.

(** The outer loop of [_hasMatchingPath].  The iterator of the inner
    [for...of] reads [checkPath], an array that the loop body never
    writes ([itemPath] is another array). *)
Fixpoint itemPaths_loop (checkPath : loc) (itemPaths : list loc) : M bool :=
  match itemPaths with
  | [] => mret false
  | itemPath :: itemPaths' =>
      names ← read checkPath;
      checkPath_loop itemPath names;;
      v ← read itemPath;
      if (length v =? 0)%nat then mret true
      else itemPaths_loop checkPath itemPaths'
  end.

Definition _hasMatchingPath (this : ItemRef) (type : PathType) (checkPath : loc)
    (attr : option string) : M bool :=
  itemPaths ← _getPaths this type attr;
  checkPath' ← slice checkPath;
  itemPaths_loop checkPath' itemPaths.

(** ** Schema *)

Definition schema_item_exists : string :=
  "schema-item-exists: Item with specified name already exists in schema.".

Definition schema_no_item : string :=
  "schema-no-item: Item with specified name does not exist in schema.".

(** [query] of [allow], [disallow] and [checkQuery]. *)
Module SchemaQuery.

Record t : Type := mk {
  name : string;
  inside : PathArg;
  attribute : option string
}.

End SchemaQuery.

(** [hasItem( itemName )].  [registerItem] also calls it on [isExtending],
    which may be [null]: no key of [_items] is [null]. *)
Definition hasItem (itemName : option string) : M bool :=
  λ w, (Ok (match itemName with
            | Some n => bool_decide (is_Some (_items (schema w) !! n))
            | None => false
            end), w).

(** [!!v] for a value that is a string or [null]. *)
Definition truthy (v : option string) : bool :=
  match v with
  | Some s => negb (bool_decide (s = EmptyString))
  | None => false
  end.

(** [chain.concat( itemName )] on the result of [_extensionChains.get]. *)
Definition concat_chain (chain : option (list string)) (itemName : string)
    : M (list string) :=
  match chain with
  | Some c => mret (c ++ [itemName])
  | None => throw TypeError
  end.

Definition registerItem (itemName : string) (isExtending : option string) : M unit :=
  registered ← hasItem (Some itemName);
  if registered : bool then throw (CKEditorError schema_item_exists) else
  missing ← (if truthy isExtending
             then (b ← hasItem isExtending; mret (negb b))
             else mret false);
  if missing : bool then throw (CKEditorError schema_no_item) else
  modify (set_items (<[itemName := mkSchemaItem [] []]>));;
  extends ← hasItem isExtending;
  chain ← (if extends : bool
           then (c ← getChain isExtending; concat_chain c itemName)
           else mret [itemName]);
  modify (set_chains (<[itemName := chain]>)).

Definition _getItem (itemName : string) : M ItemRef :=
  registered ← hasItem (Some itemName);
  if registered : bool then mret itemName
  else throw (CKEditorError schema_no_item).

Definition allow (query : SchemaQuery.t) : M unit :=
  item ← _getItem (SchemaQuery.name query);
  addAllowed item (SchemaQuery.inside query) (SchemaQuery.attribute query).

Definition disallow (query : SchemaQuery.t) : M unit :=
  item ← _getItem (SchemaQuery.name query);
  addDisallowed item (SchemaQuery.inside query) (SchemaQuery.attribute query).

(** [chain.map( ( name ) => this._getItem( name ) )] *)
Fixpoint map_getItem (chain : list string) : M (list ItemRef) :=
  match chain with
  | [] => mret []
  | name :: chain' =>
      item ← _getItem name;
      items ← map_getItem chain';
      mret (item :: items)
  end.

(** One of the two loops of [checkQuery] over [schemaItems]: [true] as
    soon as an item has a matching path of the given type. *)
Fixpoint schemaItems_loop (schemaItems : list ItemRef) (type : PathType)
    (p : loc) (attr : option string) : M bool :=
  match schemaItems with
  | [] => mret false
  | schemaItem :: schemaItems' =>
      found ← _hasMatchingPath schemaItem type p attr;
      if found : bool then mret true
      else schemaItems_loop schemaItems' type p attr
  end.

Definition checkQuery (query : SchemaQuery.t) : M bool :=
  registered ← hasItem (Some (SchemaQuery.name query));
  if negb registered then mret false else
  p ← match SchemaQuery.inside query with
      | PathString s => alloc (split s)
      | PathArray l => mret l
      end;
  chain ← getChain (Some (SchemaQuery.name query));
  match chain with
  | None => throw TypeError
  | Some chain =>
      schemaItems ← map_getItem chain;
      disallowed ← schemaItems_loop schemaItems DISALLOW p (SchemaQuery.attribute query);
      if disallowed : bool then mret false else
      allowed ← schemaItems_loop schemaItems ALLOW p (SchemaQuery.attribute query);
      if allowed : bool then mret true else mret false
  end.

(** A node of the document tree, as far as the schema reads it: its
    [name] and its [parent], [None] for [null]. *)
#[local] Unset Elimination Schemes.
Inductive Element : Type :=
  | mkElement (name : string) (parent : option Element).
#[local] Set Elimination Schemes.

(** A position, as far as the schema reads it: its [parent]. *)
Record Position : Type := mkPosition {
  parent : option Element
}.

(** The [while] loop of [_makeItemsPathFromPosition], from a non-null
    [parent]. *)
Fixpoint parents_loop (p : loc) (e : Element) : M unit :=
  match e with
  | mkElement name parent' =>
      push p name;;
      match parent' with
      | Some e' => parents_loop p e'
      | None => mret ()
      end
  end.

Definition _makeItemsPathFromPosition (position : Position) : M loc :=
  p ← alloc [];
  match parent position with
  | Some e => parents_loop p e
  | None => mret ()
  end;;
  reverse_in_place p;;
  mret p.

Definition checkAtPosition (position : Position) (name : string)
    (attr : option string) : M bool :=
  registered ← hasItem (Some name);
  if negb registered then mret false else
  p ← _makeItemsPathFromPosition position;
  checkQuery (SchemaQuery.mk name (PathArray p) attr).

(** [new Schema()]: two empty maps, then the default entities and the
    default rule. *)
Definition constructor : M unit :=
  modify (λ w, mkWorld (mkSchema ∅ ∅) (arrays w));;
  registerItem "$inline" None;;
  registerItem "$block" None;;
  registerItem "$text" (Some "$inline"%string);;
  allow (SchemaQuery.mk "$inline" (PathString "$block") None).

(** ** Notions of the specification *)

(** [c] is-a [r]: [r] occurs in the extension chain of [c], that is, [c]
    is [r] or extends it, directly or not. *)
Definition is_a (chains : gmap string (list string)) (c r : string) : bool :=
  match chains !! c with
  | Some chain => bool_decide (r ∈ chain)
  | None => false
  end.

(** Greedy consumption in the words of the specification: the candidate
    path [C] is read once, left to right; an element that is-a the head of
    what remains of the rule path [R] moves the cursor past that head, any
    other element is skipped.  The value is what remains of [R]. *)
Fixpoint greedy (chains : gmap string (list string)) (R C : list string) : list string :=
  match C with
  | [] => R
  | c :: C' =>
      match R with
      | r :: R' => if is_a chains c r then greedy chains R' C' else greedy chains R C'
      | [] => []
      end
  end.

(** The rule path [R] is satisfied by [C]: all of [R] is consumed. *)
Definition satisfied (chains : gmap string (list string)) (R C : list string) : bool :=
  bool_decide (greedy chains R C = []).

(** Every name of the candidate path has an extension chain. *)
Definition known (chains : gmap string (list string)) (C : list string) : bool :=
  forallb (λ c, bool_decide (is_Some (chains !! c))) C.

(** The contents of a registered path and its attribute. *)
Definition rule_of (h : list (list string)) (e : PathEntry) : list string * option string :=
  (default [] (h !! path e), attribute e).

(** The rules of one kind stored for the entity [n]. *)
Definition rules (w : World) (n : string) (type : PathType)
    : list (list string * option string) :=
  match _items (schema w) !! n with
  | Some item => rule_of (arrays w) <$> source_of item type
  | None => []
  end.

(** A rule matches the candidate path [C] with attribute [attr]. *)
Definition matches (chains : gmap string (list string)) (C : list string)
    (attr : option string) (r : list string * option string) : bool :=
  bool_decide (r.2 = attr) && satisfied chains r.1 C.

(** The value of [inside]: the names it stands for. *)
Definition names_of (w : World) (p : PathArg) : option (list string) :=
  match p with
  | PathString s => Some (split s)
  | PathArray l => arrays w !! l
  end.

(** The names of the ancestors of an element, itself included, from the
    root down. *)
Fixpoint names_from_root (e : Element) : list string :=
  match e with
  | mkElement name parent' =>
      match parent' with
      | Some e' => names_from_root e' ++ [name]
      | None => [name]
      end
  end.

Definition ancestor_names (position : Position) : list string :=
  match parent position with
  | Some e => names_from_root e
  | None => []
  end.

(** ** Invariants of the state *)

(** Every registered path refers to an array of the store. *)
Definition heap_wf (w : World) : Prop :=
  ∀ n item type, _items (schema w) !! n = Some item →
    Forall (λ e, path e < length (arrays w)) (source_of item type).

(** The two maps have the same keys; a chain names registered entities
    only and ends with its own entity. *)
Definition schema_wf (w : World) : Prop :=
  (∀ n, is_Some (_items (schema w) !! n) ↔ is_Some (_extensionChains (schema w) !! n)) ∧
  (∀ n c, _extensionChains (schema w) !! n = Some c →
     Forall (λ m, is_Some (_items (schema w) !! m)) c ∧ last c = Some n).

(** [w'] has the schema of [w] and every array of [w] below [n], and no
    fewer arrays. *)
Definition keeps (n : nat) (w w' : World) : Prop :=
  schema w' = schema w ∧
  take n (arrays w') = take n (arrays w) ∧
  length (arrays w) ≤ length (arrays w').

(** A computation that keeps the schema and the arrays below [n], and
    whose value, when there is one, satisfies [Q]. *)
Definition hoare {A : Type} (n : nat) (m : M A) (Q : A → Prop) : Prop :=
  ∀ w, n ≤ length (arrays w) →
    keeps n w (m w).2 ∧ ∀ a, (m w).1 = Ok a → Q a.

(** ** The value of a call as a function of what it reads *)

(** [w] with another store. *)
Definition with_arrays (w : World) (h : list (list string)) : World :=
  mkWorld (schema w) h.

(** What one candidate name does to what remains of a rule path. *)
Definition advance (chains : gmap string (list string)) (c : string) (R : list string)
    : list string :=
  match R with
  | r :: R' => if is_a chains c r then R' else R
  | [] => []
  end.

(** The value of [_hasMatchingPath] on the copies [Rs] of the registered
    paths and the candidate path [C]. *)
Definition match_result (chains : gmap string (list string)) (Rs : list (list string))
    (C : list string) : result bool :=
  match Rs with
  | [] => Ok false
  | _ :: _ =>
      if known chains C then Ok (existsb (λ R, satisfied chains R C) Rs)
      else Throw TypeError
  end.

(** The paths registered for [attr], in the order of registration. *)
Definition paths_for (w : World) (n : string) (type : PathType) (attr : option string)
    : list (list string) :=
  (filter (λ r, r.2 = attr) (rules w n type)).*1.

(** The value of one loop of [checkQuery] over the items [refs]. *)
Fixpoint any_item (chains : gmap string (list string)) (rp : string → list (list string))
    (refs : list string) (C : list string) : result bool :=
  match refs with
  | [] => Ok false
  | n :: refs' =>
      match match_result chains (rp n) C with
      | Ok true => Ok true
      | Ok false => any_item chains rp refs' C
      | Throw e => Throw e
      end
  end.

Definition registered (s : Schema) (n : string) : bool :=
  bool_decide (is_Some (_items s !! n)).

(** The value of [checkQuery] for the entity [E] and the candidate path
    [C], given the paths [rp] registered for the attribute of the query. *)
Definition query_result (s : Schema) (rp : string → PathType → list (list string))
    (E : string) (C : list string) : result bool :=
  if negb (registered s E) then Ok false else
  match _extensionChains s !! E with
  | None => Throw TypeError
  | Some chain =>
      if forallb (registered s) chain then
        match any_item (_extensionChains s) (λ n, rp n DISALLOW) chain C with
        | Throw e => Throw e
        | Ok true => Ok false
        | Ok false =>
            match any_item (_extensionChains s) (λ n, rp n ALLOW) chain C with
            | Throw e => Throw e
            | Ok b => Ok b
            end
        end
      else Throw (CKEditorError schema_no_item)
  end.

(** ** Calls and examples *)

(** A call of a method of the schema, for statements about every later
    operation. *)
Inductive call : Type :=
  | Call_registerItem (itemName : string) (isExtending : option string)
  | Call_allow (query : SchemaQuery.t)
  | Call_disallow (query : SchemaQuery.t)
  | Call_checkQuery (query : SchemaQuery.t)
  | Call_checkAtPosition (position : Position) (name : string) (attr : option string).

(** The state after a call, whether it returned or threw. *)
Definition run_call (w : World) (c : call) : World :=
  match c with
  | Call_registerItem itemName isExtending => (registerItem itemName isExtending w).2
  | Call_allow query => (allow query w).2
  | Call_disallow query => (disallow query w).2
  | Call_checkQuery query => (checkQuery query w).2
  | Call_checkAtPosition position name attr => (checkAtPosition position name attr w).2
  end.

Definition run_calls (w : World) (cs : list call) : World := foldl run_call w cs.

(** Every name that has a chain is registered. *)
Definition chains_registered (w : World) : Prop :=
  ∀ n, is_Some (_extensionChains (schema w) !! n) → is_Some (_items (schema w) !! n).

(** A call that adds a rule, with an [inside] that is a string or an
    array of the store [w0]. *)
Definition rule_call (w0 : World) (c : call) : Prop :=
  match c with
  | Call_allow query | Call_disallow query =>
      is_Some (names_of w0 (SchemaQuery.inside query))
  | _ => False
  end.

Definition member_type (member : Member) : PathType :=
  match member with
  | M_allowed => ALLOW
  | M_disallowed => DISALLOW
  end.

#[global] Instance PathType_eq_dec : EqDecision PathType.
Proof. solve_decision. Defined.

(** The rule that the call [c] adds to the rules of kind [type] of the
    entity [n], if any. *)
Definition added_rule (w0 : World) (s : Schema) (c : call) (n : string) (type : PathType)
    : list (list string * option string) :=
  match c with
  | Call_allow query =>
      if bool_decide (SchemaQuery.name query = n ∧ type = ALLOW) && registered s n
      then [(default [] (names_of w0 (SchemaQuery.inside query)), SchemaQuery.attribute query)]
      else []
  | Call_disallow query =>
      if bool_decide (SchemaQuery.name query = n ∧ type = DISALLOW) && registered s n
      then [(default [] (names_of w0 (SchemaQuery.inside query)), SchemaQuery.attribute query)]
      else []
  | _ => []
  end.

(** Two states that come from [w0] and differ by the order of their
    rules only. *)
Definition same_rules (w0 w1 w2 : World) : Prop :=
  heap_wf w1 ∧ heap_wf w2 ∧
  arrays w0 `prefix_of` arrays w1 ∧ arrays w0 `prefix_of` arrays w2 ∧
  _extensionChains (schema w1) = _extensionChains (schema w2) ∧
  (∀ n, registered (schema w1) n = registered (schema w2) n) ∧
  (∀ n type, rules w1 n type ≡ₚ rules w2 n type).

(** The names collected by walking from an element outwards to the root. *)
Fixpoint names_outward (e : Element) : list string :=
  match e with
  | mkElement name parent' =>
      name :: match parent' with
              | Some e' => names_outward e'
              | None => []
              end
  end.

(** A new schema, in a store that holds the arrays [h] of its caller. *)
Definition new_Schema (h : list (list string)) : World :=
  (constructor (mkWorld (mkSchema ∅ ∅) h)).2.

(** ** Notions for the further properties *)

(** An alignment of the rule path [R] in the candidate path [C]: names
    of [C], in their order and not necessarily adjacent, one for each
    name of [R] and each is-a the name of [R] it stands for. *)
Definition aligned (chains : gmap string (list string)) (R C : list string) : Prop :=
  ∃ C', C' `sublist_of` C ∧ Forall2 (λ c r, is_a chains c r = true) C' R.

(** A sequence of calls none of which is a [registerItem] that ends in
    a [TypeError]. *)
Fixpoint runs_clean (w : World) (cs : list call) : Prop :=
  match cs with
  | [] => True
  | c :: cs' =>
      match c with
      | Call_registerItem itemName isExtending =>
          (registerItem itemName isExtending w).1 ≠ Throw TypeError
      | _ => True
      end ∧ runs_clean (run_call w c) cs'
  end.

(** ** Reasoning about the monad *)

Lemma bind_run {A B : Type} (m : M A) (f : A → M B) (w : World) :
  (m ≫= f) w =
  match m w with
  | (Ok a, w') => f a w'
  | (Throw e, w') => (Throw e, w')
  end.
Proof. reflexivity. Qed.

Lemma bind_ok {A B : Type} (m : M A) (f : A → M B) (w w' : World) (a : A) :
  m w = (Ok a, w') → (m ≫= f) w = f a w'.
Proof. intros E. by rewrite bind_run, E. Qed.

Lemma bind_throw {A B : Type} (m : M A) (f : A → M B) (w w' : World) (e : error) :
  m w = (Throw e, w') → (m ≫= f) w = (Throw e, w').
Proof. intros E. by rewrite bind_run, E. Qed.

(** ** Frame: what a computation leaves alone *)

Lemma keeps_refl (n : nat) (w : World) : keeps n w w.
Proof. by repeat split. Qed.

Lemma keeps_trans (n : nat) (w1 w2 w3 : World) :
  keeps n w1 w2 → keeps n w2 w3 → keeps n w1 w3.
Proof.
  intros (Hs1 & Ht1 & Hl1) (Hs2 & Ht2 & Hl2).
  repeat split; [congruence | congruence | lia].
Qed.

Lemma keeps_prefix (w w' : World) :
  keeps (length (arrays w)) w w' → arrays w `prefix_of` arrays w'.
Proof.
  intros (_ & Ht & _). rewrite firstn_all in Ht.
  rewrite <- Ht. apply prefix_take.
Qed.

Lemma hoare_ret {A : Type} (n : nat) (a : A) (Q : A → Prop) :
  Q a → hoare n (mret a) Q.
Proof.
  intros HQ w _. split; [apply keeps_refl |].
  intros a' [= <-]. done.
Qed.

Lemma hoare_throw {A : Type} (n : nat) (e : error) (Q : A → Prop) :
  hoare n (throw e) Q.
Proof. intros w _. split; [apply keeps_refl | done]. Qed.

Lemma hoare_bind {A B : Type} (n : nat) (m : M A) (f : A → M B)
    (Q : A → Prop) (R : B → Prop) :
  hoare n m Q → (∀ a, Q a → hoare n (f a) R) → hoare n (m ≫= f) R.
Proof.
  intros Hm Hf w Hn. rewrite bind_run.
  destruct (Hm w Hn) as [Hk HQ].
  destruct (m w) as [[a|e] w1] eqn:E; simpl in *; [| done].
  assert (n ≤ length (arrays w1)) as Hn1 by (destruct Hk as (_ & _ & ?); lia).
  destruct (Hf a (HQ a eq_refl) w1 Hn1) as [Hk1 HR].
  split; [by eapply keeps_trans | done].
Qed.

Lemma hoare_weaken {A : Type} (n : nat) (m : M A) (Q Q' : A → Prop) :
  hoare n m Q → (∀ a, Q a → Q' a) → hoare n m Q'.
Proof. intros Hm HQ w Hn. destruct (Hm w Hn). split; eauto. Qed.

Lemma hoare_alloc (n : nat) (v : list string) : hoare n (alloc v) (λ l, n ≤ l).
Proof.
  intros w Hn. unfold alloc, keeps; simpl. split.
  - repeat split; [by rewrite take_app_le | rewrite length_app; lia].
  - intros a [= <-]. done.
Qed.

Lemma hoare_read (n : nat) (l : loc) : hoare n (read l) (λ _, True).
Proof.
  intros w _. unfold read.
  destruct (arrays w !! l); simpl; (split; [apply keeps_refl | done]).
Qed.

Lemma hoare_write (n : nat) (l : loc) (v : list string) :
  n ≤ l → hoare n (write l v) (λ _, True).
Proof.
  intros Hl w _. unfold write.
  destruct (arrays w !! l); simpl; (split; [| done]); [| apply keeps_refl].
  repeat split; simpl; [by rewrite take_insert_ge | by rewrite length_insert].
Qed.

Lemma hoare_getChain (n : nat) (name : option string) :
  hoare n (getChain name) (λ _, True).
Proof. intros w _. split; [apply keeps_refl | done]. Qed.

Lemma hoare_hasItem (n : nat) (name : option string) :
  hoare n (hasItem name) (λ _, True).
Proof. intros w _. split; [apply keeps_refl | done]. Qed.

Lemma hoare_this_item (n : nat) (this : ItemRef) :
  hoare n (this_item this) (λ _, True).
Proof.
  intros w _. unfold this_item.
  destruct (_items (schema w) !! this); simpl; (split; [apply keeps_refl | done]).
Qed.

Lemma hoare_slice (n : nat) (l : loc) : hoare n (slice l) (λ l', n ≤ l').
Proof.
  eapply hoare_bind; [apply hoare_read |].
  intros v _. apply hoare_alloc.
Qed.

Lemma hoare_shift (n : nat) (l : loc) : n ≤ l → hoare n (shift l) (λ _, True).
Proof.
  intros Hl. eapply hoare_bind; [apply hoare_read |].
  intros v _. by apply hoare_write.
Qed.

Lemma hoare_push (n : nat) (l : loc) (x : string) :
  n ≤ l → hoare n (push l x) (λ _, True).
Proof.
  intros Hl. eapply hoare_bind; [apply hoare_read |].
  intros v _. by apply hoare_write.
Qed.

Lemma hoare_reverse_in_place (n : nat) (l : loc) :
  n ≤ l → hoare n (reverse_in_place l) (λ _, True).
Proof.
  intros Hl. eapply hoare_bind; [apply hoare_read |].
  intros v _. by apply hoare_write.
Qed.

Lemma hoare_getPaths_loop (n : nat) (source : list PathEntry) (attr : option string)
    (paths : list loc) :
  Forall (λ l, n ≤ l) paths →
  hoare n (_getPaths_loop source attr paths) (Forall (λ l, n ≤ l)).
Proof.
  revert paths. induction source as [| item source IH]; intros paths Hp; simpl.
  - by apply hoare_ret.
  - case_bool_decide; [| by apply IH].
    eapply hoare_bind; [apply hoare_slice |].
    intros copy Hc. apply IH. apply Forall_app. by repeat constructor.
Qed.

Lemma hoare_getPaths (n : nat) (this : ItemRef) (type : PathType) (attr : option string) :
  hoare n (_getPaths this type attr) (Forall (λ l, n ≤ l)).
Proof.
  eapply hoare_bind; [apply hoare_this_item |].
  intros item _. by apply hoare_getPaths_loop.
Qed.

Lemma hoare_checkName_step (n : nat) (itemPath : loc) (checkName : string) :
  n ≤ itemPath → hoare n (checkName_step itemPath checkName) (λ _, True).
Proof.
  intros Hl. eapply hoare_bind; [apply hoare_getChain |].
  intros [chain|] _; [| apply hoare_throw].
  eapply hoare_bind; [apply hoare_read |].
  intros v _. destruct (_ <? _)%Z; [by apply hoare_shift | by apply hoare_ret].
Qed.

Lemma hoare_checkPath_loop (n : nat) (itemPath : loc) (names : list string) :
  n ≤ itemPath → hoare n (checkPath_loop itemPath names) (λ _, True).
Proof.
  intros Hl. induction names as [| checkName names IH]; simpl.
  - by apply hoare_ret.
  - eapply hoare_bind; [by apply hoare_checkName_step |]. by intros.
Qed.

Lemma hoare_itemPaths_loop (n : nat) (checkPath : loc) (itemPaths : list loc) :
  Forall (λ l, n ≤ l) itemPaths →
  hoare n (itemPaths_loop checkPath itemPaths) (λ _, True).
Proof.
  induction 1 as [| itemPath itemPaths Hl _ IH]; simpl.
  - by apply hoare_ret.
  - eapply hoare_bind; [apply hoare_read |]. intros names _.
    eapply hoare_bind; [by apply hoare_checkPath_loop |]. intros _ _.
    eapply hoare_bind; [apply hoare_read |]. intros v _.
    destruct (_ =? _); [by apply hoare_ret | done].
Qed.

Lemma hoare_hasMatchingPath (n : nat) (this : ItemRef) (type : PathType)
    (checkPath : loc) (attr : option string) :
  hoare n (_hasMatchingPath this type checkPath attr) (λ _, True).
Proof.
  eapply hoare_bind; [apply hoare_getPaths |]. intros itemPaths Hp.
  eapply hoare_bind; [apply hoare_slice |]. intros checkPath' _.
  by apply hoare_itemPaths_loop.
Qed.

Lemma hoare_getItem (n : nat) (itemName : string) :
  hoare n (_getItem itemName) (λ _, True).
Proof.
  eapply hoare_bind; [apply hoare_hasItem |].
  intros [|] _; [by apply hoare_ret | apply hoare_throw].
Qed.

Lemma hoare_map_getItem (n : nat) (chain : list string) :
  hoare n (map_getItem chain) (λ _, True).
Proof.
  induction chain as [| name chain IH]; simpl.
  - by apply hoare_ret.
  - eapply hoare_bind; [apply hoare_getItem |]. intros item _.
    eapply hoare_bind; [apply IH |]. intros items _. by apply hoare_ret.
Qed.

Lemma hoare_schemaItems_loop (n : nat) (schemaItems : list ItemRef) (type : PathType)
    (p : loc) (attr : option string) :
  hoare n (schemaItems_loop schemaItems type p attr) (λ _, True).
Proof.
  induction schemaItems as [| schemaItem schemaItems IH]; simpl.
  - by apply hoare_ret.
  - eapply hoare_bind; [apply hoare_hasMatchingPath |].
    intros [|] _; [by apply hoare_ret | done].
Qed.

Lemma hoare_checkQuery (n : nat) (query : SchemaQuery.t) :
  hoare n (checkQuery query) (λ _, True).
Proof.
  eapply hoare_bind; [apply hoare_hasItem |].
  intros [|] _; simpl; [| by apply hoare_ret].
  eapply (hoare_bind _ _ _ (λ _, True)).
  { destruct (SchemaQuery.inside query); [| by apply hoare_ret].
    eapply hoare_weaken; [apply hoare_alloc | done]. }
  intros p _. eapply hoare_bind; [apply hoare_getChain |].
  intros [chain|] _; [| apply hoare_throw].
  eapply hoare_bind; [apply hoare_map_getItem |]. intros schemaItems _.
  eapply hoare_bind; [apply hoare_schemaItems_loop |].
  intros [|] _; [by apply hoare_ret |].
  eapply hoare_bind; [apply hoare_schemaItems_loop |].
  intros [|] _; by apply hoare_ret.
Qed.

Lemma hoare_parents_loop (n : nat) (p : loc) (e : Element) :
  n ≤ p → hoare n (parents_loop p e) (λ _, True).
Proof.
  intros Hp. revert e.
  fix IH 1. intros [name [e'|]]; simpl.
  - eapply hoare_bind; [by apply hoare_push |]. intros _ _. apply IH.
  - eapply hoare_bind; [by apply hoare_push |]. intros _ _. by apply hoare_ret.
Qed.

Lemma hoare_makeItemsPathFromPosition (n : nat) (position : Position) :
  hoare n (_makeItemsPathFromPosition position) (λ _, True).
Proof.
  eapply hoare_bind; [apply hoare_alloc |]. intros p Hp.
  eapply (hoare_bind _ _ _ (λ _, True)).
  { destruct (parent position); [by apply hoare_parents_loop | by apply hoare_ret]. }
  intros _ _. eapply hoare_bind; [by apply hoare_reverse_in_place |].
  intros _ _. by apply hoare_ret.
Qed.

Lemma hoare_checkAtPosition (n : nat) (position : Position) (name : string)
    (attr : option string) :
  hoare n (checkAtPosition position name attr) (λ _, True).
Proof.
  eapply hoare_bind; [apply hoare_hasItem |].
  intros [|] _; simpl; [| by apply hoare_ret].
  eapply hoare_bind; [apply hoare_makeItemsPathFromPosition |].
  intros p _. apply hoare_checkQuery.
Qed.

(** ** What the loops compute *)

Lemma with_arrays_id (w : World) : with_arrays w (arrays w) = w.
Proof. by destruct w. Qed.

Lemma indexOf_from_spec (v : list string) (x : string) (i : Z) :
  (0 ≤ i)%Z →
  (x ∈ v → (i ≤ indexOf_from v x i)%Z) ∧ (x ∉ v → indexOf_from v x i = (-1)%Z).
Proof.
  revert i. induction v as [| y v IH]; intros i Hi; simpl.
  - split; [by intros ?%elem_of_nil | done].
  - case_bool_decide as Hy.
    + split; [lia |]. intros []. subst. apply list_elem_of_here.
    + destruct (IH (i + 1)%Z ltac:(lia)) as [IH1 IH2]. split.
      * intros [?|?]%elem_of_cons; [congruence |]. specialize (IH1 H). lia.
      * intros Hn. apply IH2. intros ?. apply Hn. by apply list_elem_of_further.
Qed.

Lemma indexOf_found (chain : list string) (r : string) :
  (-1 <? indexOf chain (Some r))%Z = bool_decide (r ∈ chain).
Proof.
  simpl. destruct (indexOf_from_spec chain r 0 ltac:(lia)) as [H1 H2].
  case_bool_decide as Hr.
  - apply Z.ltb_lt. specialize (H1 Hr). lia.
  - rewrite (H2 Hr). done.
Qed.

Lemma greedy_nil (chains : gmap string (list string)) (C : list string) :
  greedy chains [] C = [].
Proof. by destruct C. Qed.

Lemma greedy_cons (chains : gmap string (list string)) (c : string) (R C : list string) :
  greedy chains R (c :: C) = greedy chains (advance chains c R) C.
Proof. destruct R as [| r R]; simpl; [by rewrite greedy_nil | by destruct (is_a _ _ _)]. Qed.

(** One turn of the inner loop on a name that has a chain. *)
Lemma checkName_step_ok (w : World) (itemPath : loc) (c : string)
    (chain R : list string) :
  _extensionChains (schema w) !! c = Some chain →
  arrays w !! itemPath = Some R →
  checkName_step itemPath c w =
    (Ok (), with_arrays w (<[itemPath := advance (_extensionChains (schema w)) c R]> (arrays w))).
Proof.
  intros Hc HR. unfold checkName_step.
  rewrite (bind_ok _ _ w w (Some chain)); [| unfold getChain; simpl; by rewrite Hc].
  rewrite (bind_ok _ _ w w R); [| unfold read; by rewrite HR].
  destruct R as [| r R]; simpl.
  - rewrite list_insert_id by done. by rewrite with_arrays_id.
  - change (indexOf_from chain r 0) with (indexOf chain (Some r)).
    rewrite indexOf_found. unfold is_a. rewrite Hc.
    case_bool_decide.
    + unfold shift. rewrite (bind_ok _ _ w w (r :: R)); [| unfold read; by rewrite HR].
      unfold write. by rewrite HR.
    + rewrite list_insert_id by done. by rewrite with_arrays_id.
Qed.

(** One turn of the inner loop on a name that has no chain. *)
Lemma checkName_step_unknown (w : World) (itemPath : loc) (c : string) :
  _extensionChains (schema w) !! c = None →
  checkName_step itemPath c w = (Throw TypeError, w).
Proof.
  intros Hc. unfold checkName_step.
  rewrite (bind_ok _ _ w w None); [done |]. unfold getChain; simpl. by rewrite Hc.
Qed.

(** The inner loop consumes the rule path greedily. *)
Lemma checkPath_loop_greedy (w : World) (itemPath : loc) (R C : list string) :
  arrays w !! itemPath = Some R →
  known (_extensionChains (schema w)) C = true →
  checkPath_loop itemPath C w =
    (Ok (), with_arrays w (<[itemPath := greedy (_extensionChains (schema w)) R C]> (arrays w))).
Proof.
  revert w R. induction C as [| c C IH]; intros w R HR HC; simpl.
  - rewrite list_insert_id by done. by rewrite with_arrays_id.
  - simpl in HC. apply andb_prop in HC as [Hc HC].
    apply bool_decide_eq_true in Hc as [chain Hc].
    erewrite bind_ok; [| by eapply checkName_step_ok].
    rewrite (IH _ (advance (_extensionChains (schema w)) c R)); simpl.
    + rewrite list_insert_insert_eq. by rewrite <- greedy_cons.
    + apply list_lookup_insert_eq. by eapply lookup_lt_Some.
    + done.
Qed.

(** The inner loop stops with a [TypeError] at the first name that has
    no chain. *)
Lemma checkPath_loop_unknown (w : World) (itemPath : loc) (R C : list string) :
  arrays w !! itemPath = Some R →
  known (_extensionChains (schema w)) C = false →
  (checkPath_loop itemPath C w).1 = Throw TypeError.
Proof.
  revert w R. induction C as [| c C IH]; intros w R HR HC; simpl in *; [done |].
  destruct (_extensionChains (schema w) !! c) as [chain|] eqn:Hc.
  - erewrite bind_ok; [| by eapply checkName_step_ok].
    eapply IH; simpl.
    + apply list_lookup_insert_eq. by eapply lookup_lt_Some.
    + rewrite bool_decide_eq_true_2 in HC by eauto. done.
  - erewrite bind_throw; [| by eapply checkName_step_unknown]. done.
Qed.

Lemma Forall2_impl_elem {A B : Type} (P Q : A → B → Prop) (l : list A) (k : list B) :
  Forall2 P l k → (∀ x y, x ∈ l → P x y → Q x y) → Forall2 Q l k.
Proof.
  induction 1 as [| x y l k HP _ IH]; intros HPQ; constructor.
  - apply HPQ; [apply list_elem_of_here | done].
  - apply IH. intros x' y' Hx'. apply HPQ. by apply list_elem_of_further.
Qed.

(** The outer loop, on copies [itemPaths] that hold the rule paths [Rs]. *)
Lemma itemPaths_loop_result (w : World) (checkPath : loc) (itemPaths : list loc)
    (Rs : list (list string)) (C : list string) :
  arrays w !! checkPath = Some C →
  checkPath ∉ itemPaths →
  NoDup itemPaths →
  Forall2 (λ l R, arrays w !! l = Some R) itemPaths Rs →
  (itemPaths_loop checkPath itemPaths w).1 = match_result (_extensionChains (schema w)) Rs C.
Proof.
  revert w Rs.
  induction itemPaths as [| l itemPaths IH]; intros w Rs HC Hnot Hnd HRs.
  { by apply Forall2_nil_inv_l in HRs as ->. }
  apply Forall2_cons_inv_l in HRs as (R & Rs' & HR & HRs & ->).
  simpl. rewrite (bind_ok _ _ w w C); [| unfold read; by rewrite HC].
  apply not_elem_of_cons in Hnot as [Hne Hnot].
  apply NoDup_cons in Hnd as [Hl Hnd].
  destruct (known (_extensionChains (schema w)) C) eqn:Hk.
  - erewrite bind_ok; [| by eapply checkPath_loop_greedy].
    set (R1 := greedy (_extensionChains (schema w)) R C).
    set (w1 := with_arrays w _).
    assert (arrays w1 !! l = Some R1) as Hl1.
    { apply list_lookup_insert_eq. by eapply lookup_lt_Some. }
    rewrite (bind_ok _ _ w1 w1 R1); [| unfold read; by rewrite Hl1].
    simpl. unfold satisfied at 1. fold R1.
    destruct R1 as [| x rest] eqn:Hg; simpl; [done |].
    + rewrite (IH w1 Rs'); simpl.
      * unfold match_result. destruct Rs'; [done |]. by rewrite Hk.
      * by rewrite list_lookup_insert_ne.
      * done.
      * done.
      * eapply Forall2_impl_elem; [exact HRs |].
        intros l' R' Hl' HR'. simpl.
        rewrite list_lookup_insert_ne; [done |]. by intros ->.
  - erewrite (bind_run (checkPath_loop l C)).
    pose proof (checkPath_loop_unknown w l R C HR Hk) as Hthrow.
    destruct (checkPath_loop l C w) as [[[]|e] w1]; simpl in *; congruence.
Qed.

Lemma read_run (w : World) (l : loc) (v : list string) :
  arrays w !! l = Some v → read l w = (Ok v, w).
Proof. intros Hv. unfold read. by rewrite Hv. Qed.

Lemma alloc_run (w : World) (v : list string) :
  alloc v w = (Ok (length (arrays w)), with_arrays w (arrays w ++ [v])).
Proof. reflexivity. Qed.

Lemma slice_run (w : World) (l : loc) (v : list string) :
  arrays w !! l = Some v →
  slice l w = (Ok (length (arrays w)), with_arrays w (arrays w ++ [v])).
Proof. intros Hv. unfold slice. erewrite bind_ok; [| by apply read_run]. done. Qed.

Lemma this_item_run (w : World) (this : ItemRef) (item : SchemaItem) :
  _items (schema w) !! this = Some item → this_item this w = (Ok item, w).
Proof. intros Hi. unfold this_item. by rewrite Hi. Qed.

(** [_getPaths] copies the paths registered for [attr], in order. *)
Lemma getPaths_loop_run (w : World) (source : list PathEntry) (attr : option string)
    (paths : list loc) :
  Forall (λ e, path e < length (arrays w)) source →
  let copies := (filter (λ r, r.2 = attr) (rule_of (arrays w) <$> source)).*1 in
  _getPaths_loop source attr paths w =
    (Ok (paths ++ seq (length (arrays w)) (length copies)),
     with_arrays w (arrays w ++ copies)).
Proof.
  revert w paths. induction source as [| e source IH]; intros w paths Hs; simpl.
  - rewrite !app_nil_r. by rewrite with_arrays_id.
  - apply Forall_cons in Hs as [He Hs].
    destruct (lookup_lt_is_Some_2 _ _ He) as [v Hv].
    rewrite filter_cons. simpl. case_bool_decide as Ha.
    + rewrite decide_True by done.
      erewrite bind_ok; [| by apply slice_run].
      assert (rule_of (arrays w ++ [v]) <$> source = rule_of (arrays w) <$> source) as Heq.
      { apply Forall_fmap_ext_1. eapply Forall_impl; [exact Hs |].
        intros e' He'. unfold rule_of. simpl. by rewrite lookup_app_l. }
      rewrite IH.
      * simpl. rewrite length_app. simpl. rewrite Heq, Hv. simpl.
        rewrite <- !app_assoc. simpl.
        replace (length (arrays w) + 1) with (S (length (arrays w))) by lia.
        done.
      * simpl. rewrite length_app. simpl.
        eapply Forall_impl; [exact Hs |]. simpl. lia.
    + rewrite decide_False by done. by apply IH.
Qed.

(** The value of [_hasMatchingPath] on a registered item whose paths are
    in the store. *)
Lemma hasMatchingPath_result (w : World) (this : ItemRef) (item : SchemaItem)
    (type : PathType) (checkPath : loc) (attr : option string) (C : list string) :
  _items (schema w) !! this = Some item →
  Forall (λ e, path e < length (arrays w)) (source_of item type) →
  arrays w !! checkPath = Some C →
  (_hasMatchingPath this type checkPath attr w).1 =
    match_result (_extensionChains (schema w)) (paths_for w this type attr) C.
Proof.
  intros Hi Hs HC. unfold _hasMatchingPath, _getPaths.
  erewrite bind_ok.
  2:{ erewrite bind_ok; [| by apply this_item_run]. by apply getPaths_loop_run. }
  unfold paths_for, rules. rewrite Hi.
  set (copies := (filter _ _).*1). simpl.
  set (w1 := with_arrays w (arrays w ++ copies)).
  assert (arrays w1 !! checkPath = Some C) as HC1 by by apply lookup_app_l_Some.
  erewrite bind_ok; [| by apply slice_run].
  rewrite (itemPaths_loop_result _ _ _ copies C); simpl.
  - done.
  - apply list_lookup_middle. done.
  - rewrite length_app. intros Hin%elem_of_seq. lia.
  - apply NoDup_seq.
  - apply Forall2_same_length_lookup. split; [by rewrite length_seq |].
    intros i l R Hl HR. apply lookup_seq in Hl as [-> Hi'].
    rewrite <- app_assoc, lookup_app_r by lia.
    replace (length (arrays w) + i - length (arrays w)) with i by lia.
    by apply lookup_app_l_Some.
Qed.

(** ** Extensions of the store *)

Lemma keeps_lookup (n : nat) (w w' : World) (l : loc) :
  keeps n w w' → l < n → arrays w' !! l = arrays w !! l.
Proof.
  intros (_ & Ht & _) Hl.
  rewrite <- (lookup_take_lt (arrays w') n l), <- (lookup_take_lt (arrays w) n l) by done.
  by rewrite Ht.
Qed.

Lemma keeps_lookup_Some (w w' : World) (l : loc) (v : list string) :
  keeps (length (arrays w)) w w' → arrays w !! l = Some v → arrays w' !! l = Some v.
Proof.
  intros Hk Hv. erewrite keeps_lookup; [done..|]. by eapply lookup_lt_Some.
Qed.

Lemma keeps_heap_wf (w w' : World) :
  keeps (length (arrays w)) w w' → heap_wf w → heap_wf w'.
Proof.
  intros (Hs & _ & Hl) Hwf n item type Hi. rewrite Hs in Hi.
  eapply Forall_impl; [by apply (Hwf n item type) |]. simpl. lia.
Qed.

Lemma keeps_rules (w w' : World) (n : string) (type : PathType) :
  keeps (length (arrays w)) w w' → heap_wf w → rules w' n type = rules w n type.
Proof.
  intros Hk Hwf. unfold rules. destruct Hk as (Hs & Hk). rewrite Hs.
  destruct (_items (schema w) !! n) as [item|] eqn:Hi; [| done].
  apply Forall_fmap_ext_1. eapply Forall_impl; [by apply (Hwf n item type) |].
  intros e He. unfold rule_of. f_equal. f_equal.
  by apply (keeps_lookup (length (arrays w)) w w').
Qed.

Lemma keeps_paths_for (w w' : World) (n : string) (type : PathType) (attr : option string) :
  keeps (length (arrays w)) w w' → heap_wf w →
  paths_for w' n type attr = paths_for w n type attr.
Proof. intros Hk Hwf. unfold paths_for. by rewrite (keeps_rules w w'). Qed.

Lemma keeps_next (w w' w'' : World) :
  keeps (length (arrays w)) w w' → keeps (length (arrays w')) w' w'' →
  keeps (length (arrays w)) w w''.
Proof.
  intros Hk (Hs & Ht & Hl). eapply keeps_trans; [exact Hk |].
  destruct Hk as (_ & _ & Hl'). repeat split; [done | | done].
  assert (∀ h : list (list string),
            take (length (arrays w)) h =
            take (length (arrays w)) (take (length (arrays w')) h)) as Htake.
  { intros h. by rewrite take_take, Nat.min_l. }
  rewrite (Htake (arrays w'')), (Htake (arrays w')). by rewrite Ht.
Qed.

Lemma any_item_ext (chains : gmap string (list string))
    (rp rp' : string → list (list string)) (refs : list string) (C : list string) :
  (∀ n, n ∈ refs → rp n = rp' n) →
  any_item chains rp refs C = any_item chains rp' refs C.
Proof.
  induction refs as [| n refs IH]; intros Hrp; simpl; [done |].
  rewrite <- (Hrp n) by apply list_elem_of_here.
  rewrite IH; [done |]. intros n' Hn'. apply Hrp. by apply list_elem_of_further.
Qed.

(** The value of one loop of [checkQuery]. *)
Lemma schemaItems_loop_result (w : World) (refs : list ItemRef) (type : PathType)
    (p : loc) (attr : option string) (C : list string) :
  heap_wf w →
  Forall (λ n, is_Some (_items (schema w) !! n)) refs →
  arrays w !! p = Some C →
  (schemaItems_loop refs type p attr w).1 =
    any_item (_extensionChains (schema w)) (λ n, paths_for w n type attr) refs C.
Proof.
  revert w. induction refs as [| n refs IH]; intros w Hwf Hreg HC; simpl; [done |].
  apply Forall_cons in Hreg as [[item Hi] Hreg].
  pose proof (hasMatchingPath_result w n item type p attr C Hi (Hwf n item type Hi) HC) as Hres.
  destruct (hoare_hasMatchingPath (length (arrays w)) n type p attr w (le_n _)) as [Hk _].
  rewrite bind_run.
  destruct (_hasMatchingPath n type p attr w) as [[[|]|e] w1]; simpl in *;
    rewrite <- Hres; [done | | done].
  rewrite IH.
  - destruct Hk as (Hs & Hk). rewrite Hs. apply any_item_ext.
    intros n' _. apply keeps_paths_for; [by split | done].
  - by eapply keeps_heap_wf.
  - destruct Hk as (Hs & _). by rewrite Hs.
  - by eapply keeps_lookup_Some.
Qed.

Lemma getItem_run (w : World) (itemName : string) :
  _getItem itemName w =
    (if registered (schema w) itemName then Ok itemName
     else Throw (CKEditorError schema_no_item), w).
Proof.
  unfold _getItem. erewrite bind_ok; [| reflexivity].
  unfold registered. by case_bool_decide.
Qed.

Lemma map_getItem_run (w : World) (chain : list string) :
  map_getItem chain w =
    (if forallb (registered (schema w)) chain then Ok chain
     else Throw (CKEditorError schema_no_item), w).
Proof.
  induction chain as [| name chain IH]; simpl; [done |].
  rewrite bind_run, getItem_run.
  destruct (registered (schema w) name); simpl; [| done].
  rewrite bind_run, IH. by destruct (forallb _ chain).
Qed.

(** The value of [checkQuery], from the schema, the registered paths and
    the names of the candidate path. *)
Lemma checkQuery_result (w : World) (query : SchemaQuery.t) (C : list string) :
  heap_wf w →
  names_of w (SchemaQuery.inside query) = Some C →
  (checkQuery query w).1 =
    query_result (schema w)
      (λ n type, paths_for w n type (SchemaQuery.attribute query))
      (SchemaQuery.name query) C.
Proof.
  intros Hwf HC. unfold checkQuery, query_result.
  erewrite bind_ok; [| reflexivity]. fold (registered (schema w) (SchemaQuery.name query)).
  destruct (registered (schema w) (SchemaQuery.name query)); simpl; [| done].
  assert (∃ p w1,
    match SchemaQuery.inside query with
    | PathString s => alloc (split s)
    | PathArray l => mret l
    end w = (Ok p, w1) ∧
    keeps (length (arrays w)) w w1 ∧ arrays w1 !! p = Some C) as (p & w1 & Hstep & Hk & Hp).
  { destruct (SchemaQuery.inside query) as [s | l]; simpl in HC.
    - injection HC as <-. eexists _, _. split; [apply alloc_run |]. split.
      + apply (hoare_alloc _ (split s) w (le_n _)).
      + simpl. by apply list_lookup_middle.
    - exists l, w. split; [done |]. split; [apply keeps_refl | done]. }
  erewrite bind_ok; [| exact Hstep]. clear Hstep.
  erewrite bind_ok; [| reflexivity]. simpl.
  pose proof (keeps_heap_wf _ _ Hk Hwf) as Hwf1.
  assert (schema w1 = schema w) as Hs1 by by destruct Hk.
  rewrite Hs1.
  destruct (_extensionChains (schema w) !! SchemaQuery.name query) as [chain|]; [| done].
  rewrite bind_run, map_getItem_run, Hs1.
  destruct (forallb (registered (schema w)) chain) eqn:Hreg; [| done].
  assert (Forall (λ n, is_Some (_items (schema w) !! n)) chain) as Hreg'.
  { apply Forall_forall. intros n Hn%list_elem_of_In.
    rewrite forallb_forall in Hreg. specialize (Hreg n Hn).
    unfold registered in Hreg. by apply bool_decide_eq_true in Hreg. }
  assert (∀ (w2 : World) (type : PathType),
    keeps (length (arrays w1)) w1 w2 →
    (schemaItems_loop chain type p (SchemaQuery.attribute query) w2).1 =
      any_item (_extensionChains (schema w))
        (λ n, paths_for w n type (SchemaQuery.attribute query)) chain C ∧
    keeps (length (arrays w1)) w1
      (schemaItems_loop chain type p (SchemaQuery.attribute query) w2).2) as Hloop.
  { intros w2 type Hk2.
    pose proof (keeps_next _ _ _ Hk Hk2) as Hk02.
    assert (schema w2 = schema w) as Hs2 by by destruct Hk02.
    pose proof (keeps_heap_wf _ _ Hk02 Hwf) as Hwf2. split.
    - rewrite schemaItems_loop_result with (C := C); [| done | by rewrite Hs2 |].
      + rewrite Hs2. apply any_item_ext. intros n _. by apply keeps_paths_for.
      + exact (keeps_lookup_Some _ _ _ _ Hk2 Hp).
    - eapply keeps_next; [exact Hk2 |].
      apply (hoare_schemaItems_loop _ chain type p _ w2 (le_n _)). }
  rewrite bind_run.
  destruct (Hloop w1 DISALLOW (keeps_refl _ _)) as [Hd Hkd].
  destruct (schemaItems_loop chain DISALLOW p _ w1) as [[[|]|e] w2]; simpl in *;
    rewrite <- Hd; [done | | done].
  rewrite bind_run.
  destruct (Hloop w2 ALLOW Hkd) as [Ha _].
  destruct (schemaItems_loop chain ALLOW p _ w2) as [[[|]|e] w3]; simpl in *;
    by rewrite <- Ha.
Qed.

(** ** The path of a position *)

Lemma Element_ind (P : Element → Prop) :
  (∀ name, P (mkElement name None)) →
  (∀ name e, P e → P (mkElement name (Some e))) →
  ∀ e, P e.
Proof.
  intros Hroot Hchild. fix IH 1. intros [name [e|]].
  - apply Hchild, IH.
  - apply Hroot.
Qed.

Lemma write_run (w : World) (l : loc) (v v' : list string) :
  arrays w !! l = Some v →
  write l v' w = (Ok (), with_arrays w (<[l := v']> (arrays w))).
Proof. intros Hv. unfold write. by rewrite Hv. Qed.

Lemma push_run (w : World) (l : loc) (v : list string) (x : string) :
  arrays w !! l = Some v →
  push l x w = (Ok (), with_arrays w (<[l := v ++ [x]]> (arrays w))).
Proof.
  intros Hv. unfold push. erewrite bind_ok; [| by apply read_run].
  by eapply write_run.
Qed.

Lemma reverse_in_place_run (w : World) (l : loc) (v : list string) :
  arrays w !! l = Some v →
  reverse_in_place l w = (Ok (), with_arrays w (<[l := rev v]> (arrays w))).
Proof.
  intros Hv. unfold reverse_in_place. erewrite bind_ok; [| by apply read_run].
  by eapply write_run.
Qed.

(** The [while] loop pushes the names from the element outwards. *)
Lemma parents_loop_run (e : Element) (w : World) (p : loc) (v : list string) :
  arrays w !! p = Some v →
  parents_loop p e w =
    (Ok (), with_arrays w (<[p := v ++ rev (names_from_root e)]> (arrays w))).
Proof.
  revert w v. induction e as [name | name e IH] using Element_ind; intros w v Hv; simpl.
  - erewrite bind_ok; [| by eapply push_run]. done.
  - erewrite bind_ok; [| by eapply push_run].
    erewrite IH.
    2:{ simpl. apply list_lookup_insert_eq. by eapply lookup_lt_Some. }
    simpl. rewrite list_insert_insert_eq, rev_app_distr, <- app_assoc. done.
Qed.

Lemma makeItemsPathFromPosition_run (w : World) (position : Position) :
  _makeItemsPathFromPosition position w =
    (Ok (length (arrays w)), with_arrays w (arrays w ++ [ancestor_names position])).
Proof.
  unfold _makeItemsPathFromPosition, ancestor_names.
  erewrite bind_ok; [| apply alloc_run].
  set (w1 := with_arrays w (arrays w ++ [[]])).
  assert (arrays w1 !! length (arrays w) = Some []) as Hp
    by by apply list_lookup_middle.
  assert (∀ v v0 : list string,
    <[length (arrays w) := v]> (arrays w ++ [v0]) = arrays w ++ [v]) as Hins.
  { intros v v0. by rewrite insert_app_r_alt, Nat.sub_diag by lia. }
  destruct (parent position) as [e|].
  - erewrite bind_ok; [| by eapply parents_loop_run].
    simpl. rewrite Hins.
    erewrite bind_ok.
    2:{ eapply reverse_in_place_run. simpl. by apply list_lookup_middle. }
    simpl. by rewrite Hins, rev_involutive.
  - erewrite bind_ok; [| reflexivity].
    erewrite bind_ok; [| by eapply reverse_in_place_run].
    simpl. by rewrite Hins.
Qed.

(** The value of [checkAtPosition]: that of [checkQuery] on the names of
    the ancestors of the position. *)
Lemma checkAtPosition_result (w : World) (position : Position) (name : string)
    (attr : option string) :
  heap_wf w →
  (checkAtPosition position name attr w).1 =
    query_result (schema w) (λ n type, paths_for w n type attr) name
      (ancestor_names position).
Proof.
  intros Hwf. unfold checkAtPosition.
  erewrite bind_ok; [| reflexivity]. fold (registered (schema w) name).
  destruct (registered (schema w) name) eqn:Hreg; simpl.
  - erewrite bind_ok; [| apply makeItemsPathFromPosition_run].
    set (w1 := with_arrays w _).
    assert (keeps (length (arrays w)) w w1) as Hk.
    { repeat split; simpl; [by rewrite take_app_le | rewrite length_app; lia]. }
    rewrite (checkQuery_result w1 _ (ancestor_names position)); simpl.
    + unfold query_result. simpl. rewrite Hreg. simpl.
      destruct (_extensionChains (schema w) !! name) as [chain|]; [| done].
      assert (∀ type, any_item (_extensionChains (schema w))
                (λ n, paths_for w1 n type attr) chain (ancestor_names position) =
              any_item (_extensionChains (schema w))
                (λ n, paths_for w n type attr) chain (ancestor_names position)) as Heq.
      { intros type. apply any_item_ext. intros n _. by apply keeps_paths_for. }
      by rewrite !Heq.
    + by eapply keeps_heap_wf.
    + by apply list_lookup_middle.
  - unfold query_result. by rewrite Hreg.
Qed.

(** ** Registration and rules *)

Lemma hasItem_run (w : World) (itemName : string) :
  hasItem (Some itemName) w = (Ok (registered (schema w) itemName), w).
Proof. reflexivity. Qed.

(** [registerItem], one case after the other. *)
Lemma registerItem_unfold (w : World) (itemName : string) (isExtending : option string) :
  let has s := match isExtending with Some b => registered s b | None => false end in
  let w1 := set_items (<[itemName := mkSchemaItem [] []]>) w in
  registerItem itemName isExtending w =
    if registered (schema w) itemName
    then (Throw (CKEditorError schema_item_exists), w)
    else if truthy isExtending && negb (has (schema w))
    then (Throw (CKEditorError schema_no_item), w)
    else if has (schema w1)
    then match b ← isExtending; _extensionChains (schema w) !! b with
         | Some chain => (Ok (), set_chains (<[itemName := chain ++ [itemName]]>) w1)
         | None => (Throw TypeError, w1)
         end
    else (Ok (), set_chains (<[itemName := [itemName]]>) w1).
Proof.
  intros has w1. unfold registerItem. rewrite bind_run, hasItem_run.
  destruct (registered (schema w) itemName); [done |].
  rewrite bind_run.
  assert ((if truthy isExtending
           then b ← hasItem isExtending; mret (negb b)
           else mret false) w = (Ok (truthy isExtending && negb (has (schema w))), w)) as ->.
  { destruct (truthy isExtending); [| done]. by destruct isExtending. }
  destruct (truthy isExtending && negb (has (schema w))); [done |].
  rewrite (bind_ok _ _ w w1 ()) by reflexivity. rewrite bind_run.
  assert (hasItem isExtending w1 = (Ok (has (schema w1)), w1)) as ->
    by by destruct isExtending.
  destruct (has (schema w1)); [| done].
  rewrite !bind_run. unfold getChain. simpl.
  by destruct (b ← isExtending; _extensionChains (schema w) !! b).
Qed.

Lemma registered_true (s : Schema) (n : string) :
  registered s n = true ↔ is_Some (_items s !! n).
Proof. unfold registered. apply bool_decide_eq_true. Qed.

Lemma registered_false (s : Schema) (n : string) :
  registered s n = false ↔ _items s !! n = None.
Proof.
  unfold registered. rewrite bool_decide_eq_false.
  by rewrite eq_None_not_Some.
Qed.

(** [registerItem] on a name that is registered. *)
Lemma registerItem_exists (w : World) (itemName : string) (isExtending : option string) :
  is_Some (_items (schema w) !! itemName) →
  registerItem itemName isExtending w = (Throw (CKEditorError schema_item_exists), w).
Proof.
  intros Hreg%registered_true. by rewrite registerItem_unfold, Hreg.
Qed.

(** [registerItem] on a new name with a non-empty base that is not
    registered. *)
Lemma registerItem_no_base (w : World) (itemName base : string) :
  _items (schema w) !! itemName = None →
  base ≠ EmptyString →
  _items (schema w) !! base = None →
  registerItem itemName (Some base) w = (Throw (CKEditorError schema_no_item), w).
Proof.
  intros Hnew%registered_false Hne Hbase%registered_false.
  rewrite registerItem_unfold, Hnew, Hbase. simpl.
  by rewrite bool_decide_eq_false_2.
Qed.

(** [registerItem] on a new name without a base. *)
Lemma registerItem_plain (w : World) (itemName : string) :
  _items (schema w) !! itemName = None →
  registerItem itemName None w =
    (Ok (), mkWorld (mkSchema (<[itemName := mkSchemaItem [] []]> (_items (schema w)))
                              (<[itemName := [itemName]]> (_extensionChains (schema w))))
                    (arrays w)).
Proof. intros Hnew%registered_false. by rewrite registerItem_unfold, Hnew. Qed.

(** [registerItem] on a new name with a registered base. *)
Lemma registerItem_extending (w : World) (itemName base : string) (chain : list string) :
  _items (schema w) !! itemName = None →
  is_Some (_items (schema w) !! base) →
  _extensionChains (schema w) !! base = Some chain →
  registerItem itemName (Some base) w =
    (Ok (), mkWorld (mkSchema (<[itemName := mkSchemaItem [] []]> (_items (schema w)))
                              (<[itemName := chain ++ [itemName]]> (_extensionChains (schema w))))
                    (arrays w)).
Proof.
  intros Hnew Hbase Hchain.
  assert (base ≠ itemName) as Hne by (intros ->; rewrite Hnew in Hbase; by destruct Hbase).
  rewrite registerItem_unfold.
  apply registered_false in Hnew as ->. pose proof Hbase as ->%registered_true.
  rewrite andb_false_r.
  assert (registered (schema (set_items (<[itemName := mkSchemaItem [] []]>) w)) base = true)
    as ->.
  { apply registered_true. simpl. by rewrite lookup_insert_ne. }
  simpl. by rewrite Hchain.
Qed.

(** A call of [registerItem] that throws a [CKEditorError] changes nothing. *)
Lemma registerItem_CKEditorError (w w' : World) (itemName : string)
    (isExtending : option string) (message : string) :
  registerItem itemName isExtending w = (Throw (CKEditorError message), w') → w' = w.
Proof.
  rewrite registerItem_unfold.
  destruct (registered (schema w) itemName); [by intros [= _ <-] |].
  destruct (truthy isExtending && _); [by intros [= _ <-] |].
  destruct (match isExtending with Some b => _ | None => _ end); [| done].
  by destruct (b ← isExtending; _).
Qed.

(** [registerItem] leaves the store and the items of the other names
    alone, whatever comes of it. *)
Lemma registerItem_frame (w : World) (itemName : string) (isExtending : option string) :
  let w' := (registerItem itemName isExtending w).2 in
  arrays w' = arrays w ∧
  (∀ n item, _items (schema w) !! n = Some item → _items (schema w') !! n = Some item) ∧
  (∀ n item, _items (schema w') !! n = Some item →
     _items (schema w) !! n = Some item ∨ item = mkSchemaItem [] []).
Proof.
  rewrite registerItem_unfold.
  destruct (registered (schema w) itemName) eqn:Hreg; simpl; [by eauto |].
  apply registered_false in Hreg.
  assert (∀ n item, _items (schema w) !! n = Some item →
            <[itemName := mkSchemaItem [] []]> (_items (schema w)) !! n = Some item) as Hold.
  { intros n item Hn. rewrite lookup_insert_ne; [done | congruence]. }
  assert (∀ n item,
            <[itemName := mkSchemaItem [] []]> (_items (schema w)) !! n = Some item →
            _items (schema w) !! n = Some item ∨ item = mkSchemaItem [] []) as Hnew.
  { intros n item. rewrite lookup_insert. case_decide; [intros [= <-] |]; eauto. }
  destruct (truthy isExtending && _); simpl; [by eauto |].
  destruct (match isExtending with Some b => _ | None => _ end); simpl; [| by eauto].
  by destruct (b ← isExtending; _); simpl; eauto.
Qed.

Lemma registerItem_heap_wf (w : World) (itemName : string) (isExtending : option string) :
  heap_wf w → heap_wf (registerItem itemName isExtending w).2.
Proof.
  intros Hwf. destruct (registerItem_frame w itemName isExtending) as (Ha & _ & Hi).
  intros n item type Hn. rewrite Ha.
  destruct (Hi n item Hn) as [Hold | ->]; [by eapply Hwf |]. by destruct type.
Qed.

(** A call of [registerItem] that returns keeps the schema well formed. *)
Lemma registerItem_schema_wf (w w' : World) (itemName : string)
    (isExtending : option string) :
  schema_wf w → registerItem itemName isExtending w = (Ok (), w') → schema_wf w'.
Proof.
  intros [Hkeys Hchains]. rewrite registerItem_unfold.
  destruct (registered (schema w) itemName) eqn:Hreg; [done |].
  apply registered_false in Hreg.
  destruct (truthy isExtending && _) eqn:Hmiss; [done |].
  set (w1 := set_items _ w).
  assert (∀ chain,
    Forall (λ m, is_Some (_items (schema w) !! m)) chain →
    schema_wf (set_chains (<[itemName := chain ++ [itemName]]>) w1)) as Hgoal.
  { intros chain Hc. split; simpl.
    - intros n. rewrite !lookup_insert. case_decide; [by split; eauto |]. apply Hkeys.
    - intros n c. rewrite lookup_insert. case_decide as Hn.
      + intros [= <-]. subst n. split; [| apply last_snoc].
        apply Forall_app. split.
        * eapply Forall_impl; [exact Hc |]. intros m Hm. simpl.
          rewrite lookup_insert. case_decide; eauto.
        * repeat constructor. by rewrite lookup_insert_eq.
      + intros Hc'. destruct (Hchains n c Hc') as [Hall Hlast]. split; [| done].
        eapply Forall_impl; [exact Hall |]. intros m Hm. simpl.
        rewrite lookup_insert. case_decide; eauto. }
  destruct isExtending as [b|]; cbv beta iota.
  - destruct (registered (schema w1) b) eqn:Hb.
    + change (Some b ≫= λ b0, _extensionChains (schema w) !! b0)
        with (_extensionChains (schema w) !! b).
      destruct (_extensionChains (schema w) !! b) as [chain|] eqn:Hchain; [| done].
      intros [= <-]. apply Hgoal. by apply (Hchains b chain).
    + intros [= <-]. by apply (Hgoal []).
  - intros [= <-]. by apply (Hgoal []).
Qed.

(** [_addPath] on a registered item: one entry more, holding a new copy
    of the names of [p]. *)
Lemma addPath_run (w : World) (this : ItemRef) (member : Member) (p : PathArg)
    (attr : option string) (item : SchemaItem) (P : list string) :
  _items (schema w) !! this = Some item →
  names_of w p = Some P →
  let tmp := match p with PathString _ => [P] | PathArray _ => [] end in
  _addPath this member p attr w =
    (Ok (),
     mkWorld
       (mkSchema
          (<[this := push_member member (mkPathEntry (length (arrays w ++ tmp)) attr) item]>
             (_items (schema w)))
          (_extensionChains (schema w)))
       (arrays w ++ tmp ++ [P])).
Proof.
  intros Hi HP tmp. unfold _addPath.
  destruct p as [s | l]; simpl in HP; subst tmp.
  - injection HP as <-.
    erewrite bind_ok; [| apply alloc_run].
    erewrite bind_ok.
    2:{ apply slice_run. simpl. by apply list_lookup_middle. }
    erewrite bind_ok; [| by apply this_item_run].
    unfold modify, set_items. simpl. by rewrite <- app_assoc.
  - erewrite bind_ok; [| reflexivity].
    erewrite bind_ok; [| by apply slice_run].
    erewrite bind_ok; [| by apply this_item_run].
    unfold modify, set_items. simpl. by rewrite app_nil_r.
Qed.

Lemma allow_unknown (w : World) (query : SchemaQuery.t) :
  _items (schema w) !! SchemaQuery.name query = None →
  allow query w = (Throw (CKEditorError schema_no_item), w).
Proof.
  intros Hreg%registered_false. unfold allow.
  by rewrite bind_run, getItem_run, Hreg.
Qed.

Lemma disallow_unknown (w : World) (query : SchemaQuery.t) :
  _items (schema w) !! SchemaQuery.name query = None →
  disallow query w = (Throw (CKEditorError schema_no_item), w).
Proof.
  intros Hreg%registered_false. unfold disallow.
  by rewrite bind_run, getItem_run, Hreg.
Qed.

Lemma allow_registered (w : World) (query : SchemaQuery.t) :
  is_Some (_items (schema w) !! SchemaQuery.name query) →
  allow query w =
    _addPath (SchemaQuery.name query) M_allowed (SchemaQuery.inside query)
      (SchemaQuery.attribute query) w.
Proof.
  intros Hreg%registered_true. unfold allow.
  by rewrite bind_run, getItem_run, Hreg.
Qed.

Lemma disallow_registered (w : World) (query : SchemaQuery.t) :
  is_Some (_items (schema w) !! SchemaQuery.name query) →
  disallow query w =
    _addPath (SchemaQuery.name query) M_disallowed (SchemaQuery.inside query)
      (SchemaQuery.attribute query) w.
Proof.
  intros Hreg%registered_true. unfold disallow.
  by rewrite bind_run, getItem_run, Hreg.
Qed.

(** [_addPath] keeps the two invariants, whatever comes of it. *)
Lemma addPath_wf (w : World) (this : ItemRef) (member : Member) (p : PathArg)
    (attr : option string) :
  let w' := (_addPath this member p attr w).2 in
  (heap_wf w → heap_wf w') ∧ (schema_wf w → schema_wf w').
Proof.
  assert (∀ w1 : World, schema w1 = schema w → length (arrays w) ≤ length (arrays w1) →
            (heap_wf w → heap_wf w1) ∧ (schema_wf w → schema_wf w1)) as Hsame.
  { intros w1 Hs Hl. split.
    - intros Hwf n item type Hn. rewrite Hs in Hn.
      eapply Forall_impl; [by apply (Hwf n item type) |]. simpl. lia.
    - unfold schema_wf. by rewrite Hs. }
  destruct (_items (schema w) !! this) as [item|] eqn:Hi;
    destruct (names_of w p) as [P|] eqn:HP.
  - erewrite addPath_run by done. simpl. split.
    + intros Hwf n item' type. simpl. rewrite lookup_insert.
      rewrite !length_app. simpl.
      case_decide as Hn.
      * intros [= <-]. subst n.
        assert (Forall (λ e, path e < length (arrays w) +
                  (length match p with PathString _ => [P] | PathArray _ => [] end + 1))
                  (source_of item type)) as Hold.
        { eapply Forall_impl; [by apply (Hwf this item type) |]. simpl. lia. }
        destruct member, type; simpl; try done;
          (apply Forall_app; split; [done |]); repeat constructor; simpl; lia.
      * intros Hn'. eapply Forall_impl; [by apply (Hwf n item' type) |]. simpl. lia.
    + intros [Hkeys Hchains]. split; simpl.
      * intros n. rewrite lookup_insert. case_decide; [| apply Hkeys].
        subst n. rewrite <- Hkeys, Hi. by split; eauto.
      * intros n c Hc. destruct (Hchains n c Hc) as [Hall Hlast]. split; [| done].
        eapply Forall_impl; [exact Hall |]. intros m Hm. simpl.
        rewrite lookup_insert. case_decide; eauto.
  - destruct p as [s | l]; [done |]. simpl in HP.
    unfold _addPath. rewrite (bind_ok _ _ w w l) by done.
    unfold slice. rewrite bind_run, bind_run. unfold read. rewrite HP. simpl.
    by apply Hsame.
  - destruct p as [s | l]; simpl in HP.
    + unfold _addPath. erewrite bind_ok; [| apply alloc_run].
      erewrite bind_ok.
      2:{ apply slice_run. simpl. by apply list_lookup_middle. }
      rewrite bind_run. unfold this_item. simpl. rewrite Hi. simpl.
      apply Hsame; simpl; [done |]. rewrite !length_app. lia.
    + unfold _addPath. rewrite (bind_ok _ _ w w l) by done.
      erewrite bind_ok; [| by apply slice_run].
      rewrite bind_run. unfold this_item. simpl. rewrite Hi. simpl.
      apply Hsame; simpl; [done |]. rewrite !length_app. lia.
  - destruct p as [s | l]; [done |]. simpl in HP.
    unfold _addPath. rewrite (bind_ok _ _ w w l) by done.
    unfold slice. rewrite bind_run, bind_run. unfold read. rewrite HP. simpl.
    by apply Hsame.
Qed.

Lemma allow_wf (w : World) (query : SchemaQuery.t) :
  let w' := (allow query w).2 in
  (heap_wf w → heap_wf w') ∧ (schema_wf w → schema_wf w').
Proof.
  destruct (_items (schema w) !! SchemaQuery.name query) eqn:Hreg.
  - rewrite allow_registered by eauto. apply addPath_wf.
  - by rewrite allow_unknown.
Qed.

Lemma disallow_wf (w : World) (query : SchemaQuery.t) :
  let w' := (disallow query w).2 in
  (heap_wf w → heap_wf w') ∧ (schema_wf w → schema_wf w').
Proof.
  destruct (_items (schema w) !! SchemaQuery.name query) eqn:Hreg.
  - rewrite disallow_registered by eauto. apply addPath_wf.
  - by rewrite disallow_unknown.
Qed.

(** ** The new schema *)

Lemma registerItem_plain_wf (w : World) (itemName : string) :
  heap_wf w → schema_wf w → _items (schema w) !! itemName = None →
  ∃ w', registerItem itemName None w = (Ok (), w') ∧ heap_wf w' ∧ schema_wf w' ∧
        _items (schema w') = <[itemName := mkSchemaItem [] []]> (_items (schema w)) ∧
        _extensionChains (schema w') =
          <[itemName := [itemName]]> (_extensionChains (schema w)).
Proof.
  intros Hh Hs Hnew. eexists. split; [by apply registerItem_plain |].
  pose proof (registerItem_heap_wf w itemName None Hh) as Hh'.
  pose proof (registerItem_schema_wf w _ itemName None Hs (registerItem_plain _ _ Hnew)) as Hs'.
  rewrite registerItem_plain in Hh' by done. done.
Qed.

Lemma registerItem_extending_wf (w : World) (itemName base : string) (chain : list string) :
  heap_wf w → schema_wf w → _items (schema w) !! itemName = None →
  _extensionChains (schema w) !! base = Some chain →
  ∃ w', registerItem itemName (Some base) w = (Ok (), w') ∧ heap_wf w' ∧ schema_wf w' ∧
        _items (schema w') = <[itemName := mkSchemaItem [] []]> (_items (schema w)) ∧
        _extensionChains (schema w') =
          <[itemName := chain ++ [itemName]]> (_extensionChains (schema w)).
Proof.
  intros Hh Hs Hnew Hchain.
  assert (is_Some (_items (schema w) !! base)) as Hbase by (apply Hs; eauto).
  pose proof (registerItem_extending w itemName base chain Hnew Hbase Hchain) as E.
  eexists. split; [exact E |].
  pose proof (registerItem_heap_wf w itemName (Some base) Hh) as Hh'.
  pose proof (registerItem_schema_wf w _ itemName (Some base) Hs E) as Hs'.
  rewrite E in Hh'. done.
Qed.

Lemma constructor_run (w : World) :
  ∃ w', constructor w = (Ok (), w') ∧ heap_wf w' ∧ schema_wf w'.
Proof.
  unfold constructor.
  erewrite bind_ok; [| reflexivity].
  set (w0 := mkWorld (mkSchema ∅ ∅) (arrays w)).
  assert (heap_wf w0) as Hh0.
  { intros n item type Hn. simpl in Hn. by rewrite lookup_empty in Hn. }
  assert (schema_wf w0) as Hs0.
  { split; simpl.
    - intros n. rewrite !lookup_empty. by split; intros [? ?].
    - intros n c Hc. by rewrite lookup_empty in Hc. }
  destruct (registerItem_plain_wf w0 "$inline" Hh0 Hs0 (lookup_empty _))
    as (w1 & E1 & Hh1 & Hs1 & Hi1 & Hc1).
  erewrite bind_ok; [| exact E1].
  destruct (registerItem_plain_wf w1 "$block" Hh1 Hs1)
    as (w2 & E2 & Hh2 & Hs2 & Hi2 & Hc2); [by rewrite Hi1 |].
  erewrite bind_ok; [| exact E2].
  destruct (registerItem_extending_wf w2 "$text" "$inline" ["$inline"] Hh2 Hs2)
    as (w3 & E3 & Hh3 & Hs3 & Hi3 & Hc3);
    [by rewrite Hi2, Hi1 | by rewrite Hc2, Hc1 |].
  erewrite bind_ok; [| exact E3].
  set (q := SchemaQuery.mk "$inline" (PathString "$block") None).
  destruct (allow_wf w3 q) as [Hh4 Hs4].
  destruct (allow q w3) as [[[]|e] w4] eqn:E4.
  - exists w4. eauto.
  - rewrite allow_registered in E4 by (simpl; rewrite Hi3, Hi2, Hi1; by eauto).
    erewrite addPath_run in E4; [done | by rewrite Hi3, Hi2, Hi1 | done].
Qed.

Lemma new_Schema_wf (h : list (list string)) :
  heap_wf (new_Schema h) ∧ schema_wf (new_Schema h).
Proof.
  unfold new_Schema.
  destruct (constructor_run (mkWorld (mkSchema ∅ ∅) h)) as (w' & -> & Hh & Hs). done.
Qed.

(** ** Queries *)

Lemma names_from_root_outward (e : Element) :
  names_from_root e = rev (names_outward e).
Proof.
  induction e as [name | name e IH] using Element_ind; simpl; [done |].
  by rewrite IH.
Qed.

(** C10: a query has no side effect.  [checkQuery] and [checkAtPosition]
    leave the schema as it was, that is the items with every registered
    allow and disallow entry and every extension chain, and every array
    that was in the store before the call, the arrays of the registered
    paths among them, holds what it held: the store only gains the copies
    the scan works on. *)
Theorem checks_change_nothing (w : World) (query : SchemaQuery.t)
    (position : Position) (name : string) (attr : option string) :
  schema (checkQuery query w).2 = schema w ∧
  arrays w `prefix_of` arrays (checkQuery query w).2 ∧
  schema (checkAtPosition position name attr w).2 = schema w ∧
  arrays w `prefix_of` arrays (checkAtPosition position name attr w).2.
Proof.
  destruct (hoare_checkQuery (length (arrays w)) query w (le_n _)) as [Hq _].
  destruct (hoare_checkAtPosition (length (arrays w)) position name attr w (le_n _))
    as [Hp _].
  repeat split; try by apply keeps_prefix.
  - by destruct Hq.
  - by destruct Hp.
Qed.

(** C6: on a name that is not registered, [checkQuery] and
    [checkAtPosition] return [false] and throw nothing, whatever the path,
    the position and the attribute. *)
Theorem unregistered_name_is_rejected (w : World) (name : string) (inside : PathArg)
    (attr : option string) (position : Position) :
  _items (schema w) !! name = None →
  checkQuery (SchemaQuery.mk name inside attr) w = (Ok false, w) ∧
  checkAtPosition position name attr w = (Ok false, w).
Proof.
  intros Hreg%registered_false. unfold checkQuery, checkAtPosition. simpl.
  by rewrite !bind_run, hasItem_run, Hreg.
Qed.

Lemma unregistered_name_is_rejected_witness :
  checkQuery (SchemaQuery.mk "unregistered" (PathArray 0) None) (new_Schema [[]]) =
    (Ok false, new_Schema [[]]) ∧
  checkAtPosition (mkPosition None) "unregistered" None (new_Schema [[]]) =
    (Ok false, new_Schema [[]]).
Proof.
  apply (unregistered_name_is_rejected (new_Schema [[]]) "unregistered").
  vm_compute. reflexivity.
Defined.

(** C8: [checkAtPosition] on a position whose ancestors are named, from
    the root to the parent of the position, as the array at [l] says,
    gives what [checkQuery] gives inside that array.  The path of the
    position is built by collecting the names from the parent outwards
    and reversing them. *)
Theorem checkAtPosition_is_checkQuery (w : World) (position : Position) (name : string)
    (attr : option string) (l : loc) :
  heap_wf w →
  arrays w !! l = Some (ancestor_names position) →
  (checkAtPosition position name attr w).1 =
    (checkQuery (SchemaQuery.mk name (PathArray l) attr) w).1 ∧
  _makeItemsPathFromPosition position w =
    (Ok (length (arrays w)),
     with_arrays w (arrays w ++
       [rev match parent position with Some e => names_outward e | None => [] end])).
Proof.
  intros Hwf Hl. split.
  - rewrite checkAtPosition_result by done.
    by rewrite (checkQuery_result w _ (ancestor_names position)).
  - rewrite makeItemsPathFromPosition_run. unfold ancestor_names.
    destruct (parent position); [by rewrite names_from_root_outward | done].
Qed.

Lemma checkAtPosition_is_checkQuery_witness :
  let position :=
    mkPosition (Some (mkElement "$text" (Some (mkElement "$block" None)))) in
  let w := new_Schema [["$block"; "$text"]] in
  (checkAtPosition position "$text" None w).1 =
    (checkQuery (SchemaQuery.mk "$text" (PathArray 0) None) w).1 ∧
  _makeItemsPathFromPosition position w =
    (Ok (length (arrays w)),
     with_arrays w (arrays w ++
       [rev match parent position with Some e => names_outward e | None => [] end])).
Proof.
  apply checkAtPosition_is_checkQuery.
  - apply new_Schema_wf.
  - vm_compute. reflexivity.
Defined.

(** ** The order of the rules *)

Lemma existsb_Permutation {A : Type} (f : A → bool) (l k : list A) :
  l ≡ₚ k → existsb f l = existsb f k.
Proof.
  induction 1 as [| x l k _ IH | x y l | l k m _ IH1 _ IH2]; simpl.
  - done.
  - by rewrite IH.
  - by rewrite !orb_assoc, (orb_comm (f y)).
  - congruence.
Qed.

Lemma match_result_Permutation (chains : gmap string (list string))
    (Rs Rs' : list (list string)) (C : list string) :
  Rs ≡ₚ Rs' → match_result chains Rs C = match_result chains Rs' C.
Proof.
  intros HP. unfold match_result.
  destruct Rs as [| R Rs].
  - by apply Permutation_nil_l in HP as <-.
  - destruct Rs' as [| R' Rs']; [by apply Permutation_nil_r in HP |].
    by rewrite (existsb_Permutation _ _ _ HP).
Qed.

Lemma any_item_Permutation (chains : gmap string (list string))
    (rp rp' : string → list (list string)) (refs : list string) (C : list string) :
  (∀ n, n ∈ refs → rp n ≡ₚ rp' n) →
  any_item chains rp refs C = any_item chains rp' refs C.
Proof.
  induction refs as [| n refs IH]; intros Hrp; simpl; [done |].
  rewrite (match_result_Permutation chains (rp n) (rp' n))
    by apply Hrp, list_elem_of_here.
  rewrite IH; [done |]. intros n' Hn'. apply Hrp. by apply list_elem_of_further.
Qed.

Lemma forallb_ext_elem {A : Type} (f g : A → bool) (l : list A) :
  (∀ x, x ∈ l → f x = g x) → forallb f l = forallb g l.
Proof.
  induction l as [| x l IH]; intros Hfg; simpl; [done |].
  rewrite (Hfg x) by apply list_elem_of_here.
  rewrite IH; [done |]. intros y Hy. apply Hfg. by apply list_elem_of_further.
Qed.

(** [query_result] reads the chains, whether the entity and the
    entities of its chain are registered, and their paths up to order. *)
Lemma query_result_Permutation (s1 s2 : Schema)
    (rp1 rp2 : string → PathType → list (list string)) (E : string) (C : list string) :
  _extensionChains s1 = _extensionChains s2 →
  registered s1 E = registered s2 E →
  (∀ chain n, _extensionChains s1 !! E = Some chain → n ∈ chain →
     registered s1 n = registered s2 n ∧ ∀ type, rp1 n type ≡ₚ rp2 n type) →
  query_result s1 rp1 E C = query_result s2 rp2 E C.
Proof.
  intros Hchains Hreg Hrules. unfold query_result. rewrite <- Hchains, <- Hreg.
  destruct (registered s1 E); simpl; [| done].
  destruct (_extensionChains s1 !! E) as [chain|] eqn:Hc; [| done].
  rewrite (forallb_ext_elem (registered s1) (registered s2) chain)
    by (intros n Hn; by apply (Hrules chain n)).
  destruct (forallb (registered s2) chain); [| done].
  assert (∀ type,
    any_item (_extensionChains s1) (λ n, rp1 n type) chain C =
    any_item (_extensionChains s1) (λ n, rp2 n type) chain C) as Heq.
  { intros type. apply any_item_Permutation. intros n Hn.
    by apply (Hrules chain n eq_refl Hn). }
  by rewrite !Heq.
Qed.

Lemma paths_for_Permutation (w1 w2 : World) (n : string) (type : PathType)
    (attr : option string) :
  rules w1 n type ≡ₚ rules w2 n type →
  paths_for w1 n type attr ≡ₚ paths_for w2 n type attr.
Proof. intros HP. unfold paths_for. by rewrite HP. Qed.

(** C9: the order in which the rules were added does not matter.  Two
    states with the same extension chains in which the queried entity is
    registered alike, and in which every entity of its chain is
    registered alike and has the same rules up to their order, answer a
    query alike, whatever rules the entities outside the chain have. *)
Theorem rule_order_is_irrelevant (w1 w2 : World) (query : SchemaQuery.t)
    (C : list string) :
  heap_wf w1 → heap_wf w2 →
  _extensionChains (schema w1) = _extensionChains (schema w2) →
  registered (schema w1) (SchemaQuery.name query) =
    registered (schema w2) (SchemaQuery.name query) →
  (∀ chain n,
     _extensionChains (schema w1) !! SchemaQuery.name query = Some chain →
     n ∈ chain →
     registered (schema w1) n = registered (schema w2) n ∧
     ∀ type, rules w1 n type ≡ₚ rules w2 n type) →
  names_of w1 (SchemaQuery.inside query) = Some C →
  names_of w2 (SchemaQuery.inside query) = Some C →
  (checkQuery query w1).1 = (checkQuery query w2).1.
Proof.
  intros Hwf1 Hwf2 Hchains Hreg Hrules HC1 HC2.
  rewrite (checkQuery_result w1 query C), (checkQuery_result w2 query C) by done.
  apply query_result_Permutation; [done | done |].
  intros chain n Hc Hn. destruct (Hrules chain n Hc Hn) as [Hn' HP].
  split; [done |]. intros type. by apply paths_for_Permutation.
Qed.

(** ** Every later operation *)

(** [_addPath] either adds its entry or leaves the schema as it was. *)
Lemma addPath_cases (w : World) (this : ItemRef) (member : Member) (p : PathArg)
    (attr : option string) :
  let w' := (_addPath this member p attr w).2 in
  schema w' = schema w ∨
  ∃ item e, _items (schema w) !! this = Some item ∧
    schema w' = mkSchema (<[this := push_member member e item]> (_items (schema w)))
                         (_extensionChains (schema w)).
Proof.
  destruct (_items (schema w) !! this) as [item|] eqn:Hi;
    destruct (names_of w p) as [P|] eqn:HP.
  - right. erewrite addPath_run by done. simpl. eauto.
  - left. destruct p as [s | l]; [done |]. simpl in HP.
    unfold _addPath. rewrite (bind_ok _ _ w w l) by done.
    unfold slice. rewrite bind_run, bind_run. unfold read. by rewrite HP.
  - left. destruct p as [s | l]; simpl in HP.
    + unfold _addPath. erewrite bind_ok; [| apply alloc_run].
      erewrite bind_ok.
      2:{ apply slice_run. simpl. by apply list_lookup_middle. }
      rewrite bind_run. unfold this_item. simpl. by rewrite Hi.
    + unfold _addPath. rewrite (bind_ok _ _ w w l) by done.
      erewrite bind_ok; [| by apply slice_run].
      rewrite bind_run. unfold this_item. simpl. by rewrite Hi.
  - left. destruct p as [s | l]; [done |]. simpl in HP.
    unfold _addPath. rewrite (bind_ok _ _ w w l) by done.
    unfold slice. rewrite bind_run, bind_run. unfold read. by rewrite HP.
Qed.

Lemma addPath_chains (w : World) (this : ItemRef) (member : Member) (p : PathArg)
    (attr : option string) :
  let w' := (_addPath this member p attr w).2 in
  _extensionChains (schema w') = _extensionChains (schema w) ∧
  ∀ n, is_Some (_items (schema w) !! n) → is_Some (_items (schema w') !! n).
Proof.
  destruct (addPath_cases w this member p attr) as [Hs | (item & e & Hi & Hs)];
    cbv zeta; rewrite Hs; [done |].
  split; [done |]. intros n Hn. simpl. rewrite lookup_insert. case_decide; eauto.
Qed.

Lemma run_call_heap_wf (w : World) (c : call) : heap_wf w → heap_wf (run_call w c).
Proof.
  intros Hwf. destruct c as [itemName isExtending | query | query | query | position name attr];
    simpl.
  - by apply registerItem_heap_wf.
  - by apply allow_wf.
  - by apply disallow_wf.
  - eapply keeps_heap_wf; [| done]. apply (hoare_checkQuery _ query w (le_n _)).
  - eapply keeps_heap_wf; [| done].
    apply (hoare_checkAtPosition _ position name attr w (le_n _)).
Qed.

Lemma run_calls_heap_wf (w : World) (cs : list call) :
  heap_wf w → heap_wf (run_calls w cs).
Proof.
  revert w. induction cs as [| c cs IH]; intros w Hwf; simpl; [done |].
  by apply IH, run_call_heap_wf.
Qed.

(** A call keeps every chain that is stored, and stores chains for
    registered names only. *)
Lemma run_call_chains (w : World) (c : call) :
  chains_registered w →
  chains_registered (run_call w c) ∧
  ∀ n chain, _extensionChains (schema w) !! n = Some chain →
    _extensionChains (schema (run_call w c)) !! n = Some chain.
Proof.
  intros Hcr.
  assert (∀ w', schema w' = schema w →
    chains_registered w' ∧
    ∀ n chain, _extensionChains (schema w) !! n = Some chain →
      _extensionChains (schema w') !! n = Some chain) as Hsame.
  { intros w' Hs. unfold chains_registered. by rewrite Hs. }
  assert (∀ w', _extensionChains (schema w') = _extensionChains (schema w) →
    (∀ n, is_Some (_items (schema w) !! n) → is_Some (_items (schema w') !! n)) →
    chains_registered w' ∧
    ∀ n chain, _extensionChains (schema w) !! n = Some chain →
      _extensionChains (schema w') !! n = Some chain) as Hitems.
  { intros w' Hc Hi. split; [| by rewrite Hc].
    intros n Hn. rewrite Hc in Hn. by apply Hi, Hcr. }
  destruct c as [itemName isExtending | query | query | query | position name attr];
    simpl.
  - rewrite registerItem_unfold.
    destruct (registered (schema w) itemName) eqn:Hreg; [by apply Hsame |].
    apply registered_false in Hreg.
    destruct (truthy isExtending && _); [by apply Hsame |].
    assert (∀ n, is_Some (_items (schema w) !! n) →
              is_Some (<[itemName := mkSchemaItem [] []]> (_items (schema w)) !! n)) as Hi.
    { intros n Hn. rewrite lookup_insert. case_decide; eauto. }
    assert (_extensionChains (schema w) !! itemName = None) as Hnone.
    { apply eq_None_not_Some. intros Hc%Hcr. rewrite Hreg in Hc. by destruct Hc. }
    assert (∀ chain0,
      let w' := set_chains (<[itemName := chain0]>)
                  (set_items (<[itemName := mkSchemaItem [] []]>) w) in
      chains_registered w' ∧
      ∀ n chain, _extensionChains (schema w) !! n = Some chain →
        _extensionChains (schema w') !! n = Some chain) as Hset.
    { intros chain0. split; simpl.
      - intros n. simpl. rewrite !lookup_insert. case_decide; [by eauto |].
        intros Hn. by apply Hcr.
      - intros n chain Hn. rewrite lookup_insert_ne; [done |]. congruence. }
    destruct (match isExtending with Some b => _ | None => _ end); [| by apply Hset].
    destruct (b ← isExtending; _); [by apply Hset |].
    by apply Hitems.
  - destruct (_items (schema w) !! SchemaQuery.name query) eqn:Hreg.
    + rewrite allow_registered by eauto.
      destruct (addPath_chains w (SchemaQuery.name query) M_allowed
                  (SchemaQuery.inside query) (SchemaQuery.attribute query)).
      by apply Hitems.
    + rewrite allow_unknown by done. by apply Hsame.
  - destruct (_items (schema w) !! SchemaQuery.name query) eqn:Hreg.
    + rewrite disallow_registered by eauto.
      destruct (addPath_chains w (SchemaQuery.name query) M_disallowed
                  (SchemaQuery.inside query) (SchemaQuery.attribute query)).
      by apply Hitems.
    + rewrite disallow_unknown by done. by apply Hsame.
  - apply Hsame. by destruct (hoare_checkQuery 0 query w (Nat.le_0_l _)) as [[? _] _].
  - apply Hsame.
    by destruct (hoare_checkAtPosition 0 position name attr w (Nat.le_0_l _)) as [[? _] _].
Qed.

Lemma run_calls_chains (w : World) (cs : list call) (n : string) (chain : list string) :
  chains_registered w →
  _extensionChains (schema w) !! n = Some chain →
  _extensionChains (schema (run_calls w cs)) !! n = Some chain.
Proof.
  revert w. induction cs as [| c cs IH]; intros w Hcr Hn; simpl; [done |].
  destruct (run_call_chains w c Hcr) as [Hcr' Hkeep]. by apply IH, Hkeep.
Qed.

Lemma schema_wf_chains_registered (w : World) : schema_wf w → chains_registered w.
Proof. intros [Hkeys _] n Hn. by apply Hkeys. Qed.

(** The two invariants that every call keeps hold in every state that a
    new schema can reach. *)
Lemma run_calls_invariants (h : list (list string)) (cs : list call) :
  heap_wf (run_calls (new_Schema h) cs) ∧ chains_registered (run_calls (new_Schema h) cs).
Proof.
  destruct (new_Schema_wf h) as [Hh Hs].
  split; [by apply run_calls_heap_wf |].
  apply schema_wf_chains_registered in Hs.
  revert Hs. generalize (new_Schema h). clear Hh.
  induction cs as [| c cs IH]; intros w Hcr; simpl; [done |].
  apply IH. by apply run_call_chains.
Qed.

(** C3: [registerItem] of a new name [E] with a registered base [B]
    stores for [E] the chain of [B] followed by [E], which therefore ends
    with [E]; without a base it stores the chain [[E]]; and no later
    call, whatever it is and whether it returns or throws, changes a
    chain that is stored. *)
Theorem registerItem_stores_chain (w : World) (E : string) :
  chains_registered w →
  _items (schema w) !! E = None →
  (∀ B chainB,
     is_Some (_items (schema w) !! B) →
     _extensionChains (schema w) !! B = Some chainB →
     ∃ w', registerItem E (Some B) w = (Ok (), w') ∧
       _extensionChains (schema w') !! E = Some (chainB ++ [E]) ∧
       last (chainB ++ [E]) = Some E ∧
       ∀ cs, _extensionChains (schema (run_calls w' cs)) !! E = Some (chainB ++ [E])) ∧
  (∃ w', registerItem E None w = (Ok (), w') ∧
     _extensionChains (schema w') !! E = Some [E] ∧
     ∀ cs, _extensionChains (schema (run_calls w' cs)) !! E = Some [E]) ∧
  (∀ n chain cs,
     _extensionChains (schema w) !! n = Some chain →
     _extensionChains (schema (run_calls w cs)) !! n = Some chain).
Proof.
  intros Hcr Hnew. split; [| split].
  - intros B chainB HB Hchain.
    pose proof (registerItem_extending w E B chainB Hnew HB Hchain) as Hrun.
    destruct (run_call_chains w (Call_registerItem E (Some B)) Hcr) as [Hcr' _].
    simpl in Hcr'. rewrite Hrun in Hcr'.
    eexists. split; [exact Hrun |].
    assert (∀ chain0 : list string,
      <[E := chain0]> (_extensionChains (schema w)) !! E = Some chain0) as Hl
      by (intros; apply lookup_insert_eq).
    split; [apply Hl |]. split; [apply last_snoc |].
    intros cs. apply run_calls_chains; [exact Hcr' | apply Hl].
  - pose proof (registerItem_plain w E Hnew) as Hrun.
    destruct (run_call_chains w (Call_registerItem E None) Hcr) as [Hcr' _].
    simpl in Hcr'. rewrite Hrun in Hcr'.
    eexists. split; [exact Hrun |].
    assert (<[E := [E]]> (_extensionChains (schema w)) !! E = Some [E]) as Hl
      by apply lookup_insert_eq.
    split; [apply Hl |].
    intros cs. apply run_calls_chains; [exact Hcr' | apply Hl].
  - intros n chain cs Hn. by apply run_calls_chains.
Qed.

Lemma registerItem_stores_chain_witness :
  let w := new_Schema [] in
  (∀ B chainB,
     is_Some (_items (schema w) !! B) →
     _extensionChains (schema w) !! B = Some chainB →
     ∃ w', registerItem "p" (Some B) w = (Ok (), w') ∧
       _extensionChains (schema w') !! "p" = Some (chainB ++ ["p"]) ∧
       last (chainB ++ ["p"]) = Some "p" ∧
       ∀ cs, _extensionChains (schema (run_calls w' cs)) !! "p" = Some (chainB ++ ["p"])) ∧
  (∃ w', registerItem "p" None w = (Ok (), w') ∧
     _extensionChains (schema w') !! "p" = Some ["p"] ∧
     ∀ cs, _extensionChains (schema (run_calls w' cs)) !! "p" = Some ["p"]) ∧
  (∀ n chain cs,
     _extensionChains (schema w) !! n = Some chain →
     _extensionChains (schema (run_calls w cs)) !! n = Some chain).
Proof.
  apply (registerItem_stores_chain (new_Schema []) "p").
  - apply schema_wf_chains_registered, new_Schema_wf.
  - vm_compute. reflexivity.
Defined.

(** The chain of [$text], which extends [$inline], in a new schema, and
    that of [p] once it is registered as extending [$block]. *)
Example chain_of_text :
  _extensionChains (schema (new_Schema [])) !! "$text" = Some ["$inline"; "$text"] ∧
  _extensionChains
    (schema (run_calls (new_Schema []) [Call_registerItem "p" (Some "$block")])) !! "p" =
    Some ["$block"; "p"].
Proof. split; vm_compute; reflexivity. Qed.

(** C7: [allow] and [disallow] throw [schema-no-item] on a name that is
    not registered and change nothing.  On a registered name, whose
    [inside] stands for the names [P], they add one entry to the allowed,
    respectively the disallowed, paths of that item, at the end: its
    attribute is that of the query and its path is an array that did not
    exist before the call and holds [P], the pieces of the string when
    [inside] is a string.  Nothing else changes: the other entries, the
    other items, the chains and the arrays that existed. *)
Theorem allow_disallow_add_one_entry (w : World) (query : SchemaQuery.t) :
  (_items (schema w) !! SchemaQuery.name query = None →
   allow query w = (Throw (CKEditorError schema_no_item), w) ∧
   disallow query w = (Throw (CKEditorError schema_no_item), w)) ∧
  (∀ item P,
     _items (schema w) !! SchemaQuery.name query = Some item →
     names_of w (SchemaQuery.inside query) = Some P →
     ∃ l h,
       length (arrays w) ≤ l ∧ (arrays w ++ h) !! l = Some P ∧
       allow query w =
         (Ok (),
          mkWorld
            (mkSchema
               (<[SchemaQuery.name query :=
                    mkSchemaItem
                      (_allowed item ++ [mkPathEntry l (SchemaQuery.attribute query)])
                      (_disallowed item)]> (_items (schema w)))
               (_extensionChains (schema w)))
            (arrays w ++ h)) ∧
       disallow query w =
         (Ok (),
          mkWorld
            (mkSchema
               (<[SchemaQuery.name query :=
                    mkSchemaItem
                      (_allowed item)
                      (_disallowed item ++ [mkPathEntry l (SchemaQuery.attribute query)])]>
                  (_items (schema w)))
               (_extensionChains (schema w)))
            (arrays w ++ h))).
Proof.
  split.
  - intros Hreg. by rewrite allow_unknown, disallow_unknown.
  - intros item P Hi HP.
    rewrite allow_registered, disallow_registered by eauto.
    rewrite !(addPath_run w _ _ _ _ item P) by done. simpl.
    eexists _, _. split; [| split; [| split; reflexivity]].
    + rewrite length_app. lia.
    + rewrite app_assoc. apply list_lookup_middle. done.
Qed.

(** The scenario of the documentation of [allow]: on [p], registered as
    a block, bold text is allowed; the string [inside] is split. *)
Example allow_bold_text_in_p :
  let w := run_calls (new_Schema []) [Call_registerItem "p" (Some "$block")] in
  let w' := (allow (SchemaQuery.mk "$text" (PathString "div p") (Some "bold")) w).2 in
  _items (schema w) !! "$text" = Some (mkSchemaItem [] []) ∧
  _items (schema w') !! "$text" = Some (mkSchemaItem [mkPathEntry 3 (Some "bold")] []) ∧
  arrays w' !! 3 = Some ["div"; "p"] ∧
  length (arrays w) = 2.
Proof. repeat split; vm_compute; reflexivity. Qed.

Lemma rule_order_is_irrelevant_witness :
  let register_p := Call_registerItem "p" (Some "$block") in
  let inline_in_p := Call_allow (SchemaQuery.mk "$inline" (PathString "p") None) in
  let inline_in_block_p :=
    Call_allow (SchemaQuery.mk "$inline" (PathString "$block p") None) in
  let no_text_in_p_p := Call_disallow (SchemaQuery.mk "$text" (PathString "p p") None) in
  let block_in_p := Call_allow (SchemaQuery.mk "$block" (PathString "p") None) in
  let w1 := run_calls (new_Schema [])
              [register_p; inline_in_p; no_text_in_p_p; inline_in_block_p] in
  let w2 := run_calls (new_Schema [])
              [register_p; block_in_p; inline_in_block_p; inline_in_p; no_text_in_p_p] in
  let query := SchemaQuery.mk "$text" (PathString "$block p") None in
  (checkQuery query w1).1 = (checkQuery query w2).1.
Proof.
  intros register_p inline_in_p inline_in_block_p no_text_in_p_p block_in_p w1 w2 query.
  apply (rule_order_is_irrelevant w1 w2 query ["$block"; "p"]).
  - apply run_calls_heap_wf, new_Schema_wf.
  - apply run_calls_heap_wf, new_Schema_wf.
  - vm_compute. reflexivity.
  - vm_compute. reflexivity.
  - intros chain n Hc Hn. vm_compute in Hc. injection Hc as <-.
    apply list_elem_of_In in Hn. simpl in Hn.
    destruct Hn as [<- | [<- | []]]; (split; [vm_compute; reflexivity |]);
      intros []; vm_compute;
      first [reflexivity | apply perm_skip, perm_swap].
  - vm_compute. reflexivity.
  - vm_compute. reflexivity.
Defined.

(** The two states of the witness give [true]; the rules of [$inline]
    are stored in another order in the second one. *)
Example rule_order_example :
  let register_p := Call_registerItem "p" (Some "$block") in
  let inline_in_p := Call_allow (SchemaQuery.mk "$inline" (PathString "p") None) in
  let inline_in_block_p :=
    Call_allow (SchemaQuery.mk "$inline" (PathString "$block p") None) in
  let w1 := run_calls (new_Schema []) [register_p; inline_in_p; inline_in_block_p] in
  let w2 := run_calls (new_Schema []) [register_p; inline_in_block_p; inline_in_p] in
  let query := SchemaQuery.mk "$text" (PathString "$block p") None in
  (checkQuery query w1).1 = Ok true ∧ (checkQuery query w2).1 = Ok true ∧
  rules w1 "$inline" ALLOW =
    [(["$block"], None); (["p"], None); (["$block"; "p"], None)] ∧
  rules w2 "$inline" ALLOW =
    [(["$block"], None); (["$block"; "p"], None); (["p"], None)].
Proof. repeat split; vm_compute; reflexivity. Qed.

(** ** Adding the rules in another order *)

Lemma source_of_push_member (member : Member) (e : PathEntry) (item : SchemaItem)
    (type : PathType) :
  source_of (push_member member e item) type =
    source_of item type ++ (if bool_decide (type = member_type member) then [e] else []).
Proof. destruct member, type; simpl; by rewrite ?app_nil_r. Qed.

Lemma rules_after_addPath (w : World) (this : ItemRef) (member : Member) (p : PathArg)
    (attr : option string) (item : SchemaItem) (P : list string)
    (n : string) (type : PathType) :
  heap_wf w →
  _items (schema w) !! this = Some item →
  names_of w p = Some P →
  rules (_addPath this member p attr w).2 n type =
    rules w n type ++
    (if bool_decide (this = n ∧ type = member_type member) then [(P, attr)] else []).
Proof.
  intros Hwf Hi HP. erewrite addPath_run by done. unfold rules. simpl.
  set (tmp := match p with PathString _ => [P] | PathArray _ => [] end).
  assert (∀ n' item', _items (schema w) !! n' = Some item' →
    rule_of (arrays w ++ tmp ++ [P]) <$> source_of item' type =
    rule_of (arrays w) <$> source_of item' type) as Hold.
  { intros n' item' Hn'. apply Forall_fmap_ext_1.
    eapply Forall_impl; [by apply (Hwf n' item' type) |].
    intros e He. unfold rule_of. by rewrite lookup_app_l. }
  rewrite lookup_insert. case_decide as Hn.
  - subst n. rewrite Hi.
    assert (rule_of (arrays w ++ tmp ++ [P]) (mkPathEntry (length (arrays w ++ tmp)) attr) =
            (P, attr)) as He.
    { unfold rule_of. simpl. rewrite app_assoc. by rewrite list_lookup_middle. }
    rewrite source_of_push_member, fmap_app, (Hold this item Hi).
    case_bool_decide as Ht.
    + rewrite bool_decide_eq_true_2 by done. simpl. by rewrite He.
    + by rewrite bool_decide_eq_false_2 by (by intros [_ ?]).
  - rewrite bool_decide_eq_false_2 by (by intros [? _]). rewrite app_nil_r.
    destruct (_items (schema w) !! n) as [item'|] eqn:Hn'; [by apply (Hold n) | done].
Qed.

Lemma registered_after_addPath (w : World) (this : ItemRef) (member : Member)
    (p : PathArg) (attr : option string) (n : string) :
  registered (schema (_addPath this member p attr w).2) n = registered (schema w) n.
Proof.
  destruct (addPath_cases w this member p attr) as [Hs | (item & e & Hi & Hs)];
    rewrite Hs; [done |].
  unfold registered. simpl. apply bool_decide_ext.
  rewrite lookup_insert. case_decide; [| done]. subst n. rewrite Hi. by split; eauto.
Qed.

(** What a call that adds a rule does to a state that extends [w0]. *)
Lemma run_rule_call (w0 w : World) (c : call) :
  rule_call w0 c → heap_wf w → arrays w0 `prefix_of` arrays w →
  heap_wf (run_call w c) ∧
  arrays w0 `prefix_of` arrays (run_call w c) ∧
  _extensionChains (schema (run_call w c)) = _extensionChains (schema w) ∧
  (∀ n, registered (schema (run_call w c)) n = registered (schema w) n) ∧
  (∀ n type, rules (run_call w c) n type =
               rules w n type ++ added_rule w0 (schema w) c n type).
Proof.
  intros Hc Hwf Hpre.
  assert (∀ this member query,
    is_Some (names_of w0 (SchemaQuery.inside query)) →
    let w' := (_addPath this member (SchemaQuery.inside query)
                 (SchemaQuery.attribute query) w).2 in
    is_Some (_items (schema w) !! this) →
    arrays w0 `prefix_of` arrays w' ∧
    ∀ n type, rules w' n type =
      rules w n type ++
      (if bool_decide (this = n ∧ type = member_type member) && registered (schema w) n
       then [(default [] (names_of w0 (SchemaQuery.inside query)),
              SchemaQuery.attribute query)]
       else [])) as Hadd.
  { intros this member query [P HP0] w' [item Hi].
    assert (names_of w (SchemaQuery.inside query) = Some P) as HP.
    { destruct (SchemaQuery.inside query) as [s | l]; [done |]. simpl in *.
      by eapply prefix_lookup_Some. }
    split.
    - unfold w'. erewrite addPath_run by done. simpl.
      by apply prefix_app_r.
    - intros n type. unfold w'.
      rewrite (rules_after_addPath w this member _ _ item P) by done.
      rewrite HP0. simpl. case_bool_decide as Hn; [| done].
      destruct Hn as [<- _]. simpl.
      by rewrite (proj2 (registered_true (schema w) this)) by eauto. }
  destruct c as [itemName isExtending | query | query | query | position name attr];
    try done; simpl in *.
  - split; [by apply allow_wf |].
    destruct (_items (schema w) !! SchemaQuery.name query) eqn:Hq.
    + rewrite allow_registered by eauto.
      destruct (Hadd (SchemaQuery.name query) M_allowed query Hc) as [Hp Hr]; [by eauto |].
      split; [done |]. split; [apply addPath_chains |].
      split; [apply registered_after_addPath | done].
    + rewrite allow_unknown by done. repeat split; try done.
      intros n type.
      case_bool_decide as Hn; simpl; [| by rewrite app_nil_r].
      destruct Hn as [<- _].
      rewrite (proj2 (registered_false (schema w) _)) by done. by rewrite app_nil_r.
  - split; [by apply disallow_wf |].
    destruct (_items (schema w) !! SchemaQuery.name query) eqn:Hq.
    + rewrite disallow_registered by eauto.
      destruct (Hadd (SchemaQuery.name query) M_disallowed query Hc) as [Hp Hr];
        [by eauto |].
      split; [done |]. split; [apply addPath_chains |].
      split; [apply registered_after_addPath | done].
    + rewrite disallow_unknown by done. repeat split; try done.
      intros n type.
      case_bool_decide as Hn; simpl; [| by rewrite app_nil_r].
      destruct Hn as [<- _].
      rewrite (proj2 (registered_false (schema w) _)) by done. by rewrite app_nil_r.
Qed.

Lemma added_rule_registered (w0 : World) (s1 s2 : Schema) (c : call) (n : string)
    (type : PathType) :
  registered s1 n = registered s2 n →
  added_rule w0 s1 c n type = added_rule w0 s2 c n type.
Proof. intros Hreg. destruct c; simpl; by rewrite ?Hreg. Qed.

Lemma same_rules_refl (w0 w : World) :
  heap_wf w → arrays w0 `prefix_of` arrays w → same_rules w0 w w.
Proof. intros Hwf Hpre. by repeat split. Qed.

Lemma same_rules_trans (w0 w1 w2 w3 : World) :
  same_rules w0 w1 w2 → same_rules w0 w2 w3 → same_rules w0 w1 w3.
Proof.
  intros (Hh1 & _ & Hp1 & _ & Hc12 & Hr12 & Hperm12)
         (_ & Hh3 & _ & Hp3 & Hc23 & Hr23 & Hperm23).
  repeat split; try done.
  - congruence.
  - intros n. by rewrite Hr12.
  - intros n type. by rewrite Hperm12.
Qed.

Lemma same_rules_step (w0 w1 w2 : World) (c : call) :
  rule_call w0 c → same_rules w0 w1 w2 →
  same_rules w0 (run_call w1 c) (run_call w2 c).
Proof.
  intros Hc (Hh1 & Hh2 & Hp1 & Hp2 & Hchains & Hreg & Hperm).
  destruct (run_rule_call w0 w1 c Hc Hh1 Hp1) as (Hh1' & Hp1' & Hc1 & Hr1 & Hrules1).
  destruct (run_rule_call w0 w2 c Hc Hh2 Hp2) as (Hh2' & Hp2' & Hc2 & Hr2 & Hrules2).
  repeat split; try done.
  - congruence.
  - intros n. by rewrite Hr1, Hr2.
  - intros n type. rewrite Hrules1, Hrules2.
    rewrite (added_rule_registered w0 (schema w1) (schema w2)) by done.
    by rewrite Hperm.
Qed.

Lemma same_rules_swap (w0 w1 w2 : World) (c1 c2 : call) :
  rule_call w0 c1 → rule_call w0 c2 → same_rules w0 w1 w2 →
  same_rules w0 (run_call (run_call w1 c1) c2) (run_call (run_call w2 c2) c1).
Proof.
  intros Hc1 Hc2 (Hh1 & Hh2 & Hp1 & Hp2 & Hchains & Hreg & Hperm).
  destruct (run_rule_call w0 w1 c1 Hc1 Hh1 Hp1) as (Hh1' & Hp1' & Hch1 & Hr1 & Hrules1).
  destruct (run_rule_call w0 _ c2 Hc2 Hh1' Hp1') as (Hh1'' & Hp1'' & Hch1' & Hr1' & Hrules1').
  destruct (run_rule_call w0 w2 c2 Hc2 Hh2 Hp2) as (Hh2' & Hp2' & Hch2 & Hr2 & Hrules2).
  destruct (run_rule_call w0 _ c1 Hc1 Hh2' Hp2') as (Hh2'' & Hp2'' & Hch2' & Hr2' & Hrules2').
  repeat split; try done.
  - congruence.
  - intros n. by rewrite Hr1', Hr1, Hr2', Hr2.
  - intros n type. rewrite Hrules1', Hrules1, Hrules2', Hrules2.
    rewrite (added_rule_registered w0 _ (schema w2) c2) by (by rewrite Hr1).
    rewrite (added_rule_registered w0 _ (schema w2) c1) by done.
    rewrite (added_rule_registered w0 (schema (run_call w2 c2)) (schema w2) c1) by done.
    rewrite <- !app_assoc. rewrite Hperm. apply Permutation_app_head, Permutation_app_comm.
Qed.

Lemma run_calls_same_rules (w0 : World) (cs cs' : list call) :
  cs ≡ₚ cs' → Forall (rule_call w0) cs →
  ∀ w1 w2, same_rules w0 w1 w2 → same_rules w0 (run_calls w1 cs) (run_calls w2 cs').
Proof.
  induction 1 as [| c cs cs' _ IH | c1 c2 cs | cs cs' cs'' HP1 IH1 HP2 IH2];
    intros Hcs w1 w2 Hsame; simpl.
  - done.
  - apply Forall_cons in Hcs as [Hc Hcs]. by apply IH, same_rules_step.
  - apply Forall_cons in Hcs as [Hc2 Hcs]. apply Forall_cons in Hcs as [Hc1 Hcs].
    assert (∀ w w', same_rules w0 w w' →
              same_rules w0 (run_calls w cs) (run_calls w' cs)) as Hrest.
    { clear w1 w2 Hsame. induction cs as [| c cs IH]; intros w w' Hs; simpl; [done |].
      apply Forall_cons in Hcs as [Hc Hcs]. by apply IH, same_rules_step. }
    by apply Hrest, same_rules_swap.
  - eapply same_rules_trans.
    + apply IH1; [done |]. apply same_rules_refl; by destruct Hsame as (? & _ & ? & _).
    + apply IH2; [by rewrite <- HP1 | done].
Qed.

(** Rules added in another order: the same rules up to their order. *)
Lemma permuted_rule_calls (w : World) (cs cs' : list call) :
  heap_wf w → Forall (rule_call w) cs → cs ≡ₚ cs' →
  same_rules w (run_calls w cs) (run_calls w cs').
Proof.
  intros Hwf Hcs HP. apply run_calls_same_rules; [done | done |].
  by apply same_rules_refl.
Qed.

(** Rules added in another order: the same answer to every query. *)
Lemma permuted_rule_calls_same_answers (w : World) (cs cs' : list call)
    (query : SchemaQuery.t) (C : list string) :
  heap_wf w → Forall (rule_call w) cs → cs ≡ₚ cs' →
  names_of w (SchemaQuery.inside query) = Some C →
  (checkQuery query (run_calls w cs)).1 = (checkQuery query (run_calls w cs')).1.
Proof.
  intros Hwf Hcs HP HC.
  destruct (permuted_rule_calls w cs cs' Hwf Hcs HP)
    as (Hh1 & Hh2 & Hp1 & Hp2 & Hchains & Hreg & Hperm).
  assert (∀ w', arrays w `prefix_of` arrays w' →
            names_of w' (SchemaQuery.inside query) = Some C) as Hnames.
  { intros w' Hpre. destruct (SchemaQuery.inside query) as [s | l]; [done |].
    simpl in *. by eapply prefix_lookup_Some. }
  rewrite (checkQuery_result _ query C), (checkQuery_result _ query C) by eauto.
  apply query_result_Permutation; [done | done |].
  intros chain n _ _. split; [done |]. intros type. by apply paths_for_Permutation.
Qed.

(** ** Matching on candidate paths whose names have a chain *)

Lemma match_result_known (chains : gmap string (list string)) (Rs : list (list string))
    (C : list string) :
  known chains C = true →
  match_result chains Rs C = Ok (existsb (λ R, satisfied chains R C) Rs).
Proof. intros Hk. unfold match_result. rewrite Hk. by destruct Rs. Qed.

Lemma any_item_known (chains : gmap string (list string))
    (rp : string → list (list string)) (refs : list string) (C : list string) :
  known chains C = true →
  any_item chains rp refs C =
    Ok (existsb (λ n, existsb (λ R, satisfied chains R C) (rp n)) refs).
Proof.
  intros Hk. induction refs as [| n refs IH]; simpl; [done |].
  rewrite match_result_known by done.
  by destruct (existsb _ (rp n)).
Qed.

Lemma existsb_elem_of {A : Type} (f : A → bool) (l : list A) :
  existsb f l = true ↔ ∃ x, x ∈ l ∧ f x = true.
Proof.
  rewrite existsb_exists. split; intros (x & Hx & Hf); exists x;
    (split; [by apply list_elem_of_In | done]).
Qed.

Lemma existsb_paths_for (w : World) (n : string) (type : PathType) (attr : option string)
    (C : list string) :
  existsb (λ R, satisfied (_extensionChains (schema w)) R C) (paths_for w n type attr) =
  existsb (matches (_extensionChains (schema w)) C attr) (rules w n type).
Proof.
  unfold paths_for. induction (rules w n type) as [| r rs IH]; [done |].
  rewrite filter_cons. cbn [existsb]. unfold matches at 1.
  destruct (decide (r.2 = attr)).
  - rewrite fmap_cons. cbn [existsb]. rewrite IH.
    by rewrite bool_decide_eq_true_2.
  - rewrite IH. by rewrite bool_decide_eq_false_2.
Qed.

(** An empty rule path is satisfied by every candidate path. *)
Lemma satisfied_nil (chains : gmap string (list string)) (C : list string) :
  satisfied chains [] C = true.
Proof. unfold satisfied. by rewrite greedy_nil. Qed.

(** On a candidate path whose names all have a chain, one registered
    path is matched by greedy consumption: the scan of [_hasMatchingPath]
    on an item that has the single path [R] for the attribute leaves
    what [greedy] leaves, and the path matches when nothing is left. *)
Lemma hasMatchingPath_greedy (w : World) (this : ItemRef) (item : SchemaItem)
    (type : PathType) (e : PathEntry) (checkPath : loc) (R C : list string) :
  _items (schema w) !! this = Some item →
  source_of item type = [e] →
  arrays w !! path e = Some R →
  arrays w !! checkPath = Some C →
  known (_extensionChains (schema w)) C = true →
  (_hasMatchingPath this type checkPath (attribute e) w).1 =
    Ok (bool_decide (greedy (_extensionChains (schema w)) R C = [])).
Proof.
  intros Hi Hsrc HR HC Hk.
  rewrite (hasMatchingPath_result w this item type checkPath _ C); [| done | | done].
  - rewrite match_result_known by done. unfold paths_for, rules. rewrite Hi, Hsrc.
    simpl. unfold rule_of at 1. rewrite HR. simpl.
    rewrite filter_cons, decide_True by done. simpl. by rewrite orb_false_r.
  - rewrite Hsrc. repeat constructor. by eapply lookup_lt_Some.
Qed.

(** On a candidate path whose names all have a chain, [_hasMatchingPath]
    returns a boolean: whether a registered path of the attribute is
    satisfied.  With no path registered for the attribute it returns
    [false] on every candidate path. *)
Lemma hasMatchingPath_total (w : World) (this : ItemRef) (item : SchemaItem)
    (type : PathType) (checkPath : loc) (attr : option string) (C : list string) :
  heap_wf w →
  _items (schema w) !! this = Some item →
  arrays w !! checkPath = Some C →
  (known (_extensionChains (schema w)) C = true →
   (_hasMatchingPath this type checkPath attr w).1 =
     Ok (existsb (matches (_extensionChains (schema w)) C attr) (rules w this type))) ∧
  (Forall (λ r, r.2 ≠ attr) (rules w this type) →
   (_hasMatchingPath this type checkPath attr w).1 = Ok false).
Proof.
  intros Hwf Hi HC.
  rewrite (hasMatchingPath_result w this item type checkPath attr C) by eauto.
  split.
  - intros Hk. by rewrite match_result_known, existsb_paths_for.
  - intros Hnone. unfold paths_for.
    replace (filter (λ r, r.2 = attr) (rules w this type)) with
      (@nil (list string * option string)); [done |].
    symmetry. induction Hnone as [| r rs Hr _ IH]; [done |].
    by rewrite filter_cons, decide_False.
Qed.

(** On a candidate path whose names are all registered, [checkQuery] on
    a registered entity returns a boolean, [true] exactly when no entity
    of its chain has a disallow rule that matches and one has an allow
    rule that matches. *)
Lemma checkQuery_decides (w : World) (query : SchemaQuery.t) (C : list string) :
  heap_wf w → schema_wf w →
  is_Some (_items (schema w) !! SchemaQuery.name query) →
  names_of w (SchemaQuery.inside query) = Some C →
  known (_extensionChains (schema w)) C = true →
  ∃ chain b,
    _extensionChains (schema w) !! SchemaQuery.name query = Some chain ∧
    (checkQuery query w).1 = Ok b ∧
    (b = true ↔
       (¬ ∃ n r, n ∈ chain ∧ r ∈ rules w n DISALLOW ∧
            matches (_extensionChains (schema w)) C (SchemaQuery.attribute query) r = true) ∧
       (∃ n r, n ∈ chain ∧ r ∈ rules w n ALLOW ∧
            matches (_extensionChains (schema w)) C (SchemaQuery.attribute query) r = true)).
Proof.
  intros Hwf [Hkeys Hchains] Hreg HC Hk.
  destruct (proj1 (Hkeys _) Hreg) as [chain Hchain].
  exists chain.
  rewrite (checkQuery_result w query C) by done.
  unfold query_result.
  rewrite (proj2 (registered_true _ _) Hreg), Hchain. simpl.
  assert (forallb (registered (schema w)) chain = true) as ->.
  { apply forallb_forall. intros n Hn%list_elem_of_In. apply registered_true.
    destruct (Hchains _ _ Hchain) as [Hall _].
    by apply (proj1 (Forall_forall _ _) Hall). }
  rewrite !any_item_known by done.
  set (any type := existsb (λ n, existsb
         (λ R, satisfied (_extensionChains (schema w)) R C)
         (paths_for w n type (SchemaQuery.attribute query))) chain).
  assert (∀ type, any type = true ↔
            ∃ n r, n ∈ chain ∧ r ∈ rules w n type ∧
              matches (_extensionChains (schema w)) C (SchemaQuery.attribute query) r = true)
    as Hany.
  { intros type. unfold any. rewrite existsb_elem_of. split.
    - intros (n & Hn & Hex). rewrite existsb_paths_for in Hex.
      apply existsb_elem_of in Hex as (r & Hr & Hm). eauto.
    - intros (n & r & Hn & Hr & Hm). exists n. split; [done |].
      rewrite existsb_paths_for. apply existsb_elem_of. eauto. }
  exists (negb (any DISALLOW) && any ALLOW). split; [done |]. split.
  { fold (any DISALLOW). fold (any ALLOW). by destruct (any DISALLOW), (any ALLOW). }
  rewrite <- !Hany.
  destruct (any DISALLOW), (any ALLOW); simpl; split; try done; intros [? ?]; try done.
Qed.

(** The registered path is a copy: what the caller does to its own array
    afterwards does not reach the rule. *)
Example allow_copies_the_path :
  let w := run_calls (new_Schema [["p"]])
             [Call_registerItem "p" (Some "$block");
              Call_allow (SchemaQuery.mk "$text" (PathArray 0) None)] in
  let w' := (push 0 "div" w).2 in
  arrays w' !! 0 = Some ["p"; "div"] ∧
  rules w "$text" ALLOW = [(["p"], None)] ∧
  rules w' "$text" ALLOW = [(["p"], None)].
Proof. repeat split; vm_compute; reflexivity. Qed.

(** The example of the comment in [_hasMatchingPath]: the item path
    [B D E] matches the checked path [A B C D E], and what [greedy]
    leaves of it is nothing; [B E D] does not match. *)
Example item_path_B_D_E :
  let w := run_calls (new_Schema [])
             [Call_registerItem "A" None; Call_registerItem "B" None;
              Call_registerItem "C" None; Call_registerItem "D" None;
              Call_registerItem "E" None; Call_registerItem "X" None;
              Call_registerItem "Y" None;
              Call_allow (SchemaQuery.mk "X" (PathString "B D E") None);
              Call_allow (SchemaQuery.mk "Y" (PathString "B E D") None)] in
  (checkQuery (SchemaQuery.mk "X" (PathString "A B C D E") None) w).1 = Ok true ∧
  (checkQuery (SchemaQuery.mk "Y" (PathString "A B C D E") None) w).1 = Ok false ∧
  greedy (_extensionChains (schema w)) ["B"; "D"; "E"] ["A"; "B"; "C"; "D"; "E"] = [] ∧
  greedy (_extensionChains (schema w)) ["B"; "E"; "D"] ["A"; "B"; "C"; "D"; "E"] = ["D"].
Proof. repeat split; vm_compute; reflexivity. Qed.

(** [checkQuery_decides] on the default rule of a new schema. *)
Example checkQuery_decides_text_in_block :
  let w := new_Schema [] in
  let chains := _extensionChains (schema w) in
  ∃ chain b,
    chains !! "$text" = Some chain ∧
    (checkQuery (SchemaQuery.mk "$text" (PathString "$block") None) w).1 = Ok b ∧
    (b = true ↔
       (¬ ∃ n r, n ∈ chain ∧ r ∈ rules w n DISALLOW ∧
            matches chains ["$block"] None r = true) ∧
       (∃ n r, n ∈ chain ∧ r ∈ rules w n ALLOW ∧
            matches chains ["$block"] None r = true)).
Proof.
  apply (checkQuery_decides (new_Schema [])
           (SchemaQuery.mk "$text" (PathString "$block") None) ["$block"]).
  - apply new_Schema_wf.
  - apply new_Schema_wf.
  - vm_compute. eauto.
  - reflexivity.
  - vm_compute. reflexivity.
Qed.

(** ** Scenarios *)

(** Text is allowed in a block through [$inline], which it extends. *)
Example text_in_block :
  (checkQuery (SchemaQuery.mk "$text" (PathString "$block") None) (new_Schema [])).1 = Ok true.
Proof. vm_compute. reflexivity. Qed.

(** A rule registered for an attribute applies to that attribute only. *)
Example bold_text_in_p :
  let w := run_calls (new_Schema [])
             [Call_registerItem "p" (Some "$block");
              Call_allow (SchemaQuery.mk "$text" (PathString "p") (Some "bold"))] in
  (checkQuery (SchemaQuery.mk "$text" (PathString "p") (Some "bold")) w).1 = Ok true ∧
  (checkQuery (SchemaQuery.mk "$text" (PathString "p") (Some "italic")) w).1 = Ok false.
Proof. split; vm_compute; reflexivity. Qed.

(** A disallow rule on a shorter path wins over an allow rule. *)
Example header_in_div_p :
  let w := run_calls (new_Schema [])
             [Call_registerItem "p" (Some "$block");
              Call_registerItem "div" (Some "$block");
              Call_registerItem "header" None;
              Call_allow (SchemaQuery.mk "header" (PathString "div p") None)] in
  let w' := run_call w (Call_disallow (SchemaQuery.mk "header" (PathString "div") None)) in
  (checkQuery (SchemaQuery.mk "header" (PathString "div p") None) w).1 = Ok true ∧
  (checkQuery (SchemaQuery.mk "header" (PathString "div p") None) w').1 = Ok false.
Proof. split; vm_compute; reflexivity. Qed.

(** Registering twice, and extending a name that does not exist. *)
Example registerItem_errors :
  let w := run_call (new_Schema []) (Call_registerItem "x" None) in
  (registerItem "x" None w).1 = Throw (CKEditorError schema_item_exists) ∧
  (registerItem "y" (Some "nonexistent") w).1 = Throw (CKEditorError schema_no_item).
Proof. split; vm_compute; reflexivity. Qed.

(** ** Names without an extension chain *)

(** C1: a candidate path may name an entity that is not registered: in a
    new schema, [$text] is registered, its chain is [$inline], [$text],
    and no rule of either matches the path [paragraph], so the query is
    to be answered [false].  [checkQuery] throws a [TypeError] instead:
    the scan of the allow path of [$inline] reads the chain of
    [paragraph], which is [undefined]. *)
Theorem checkQuery_throws_on_unregistered_path_name :
  let w := new_Schema [] in
  let query := SchemaQuery.mk "$text" (PathString "paragraph") None in
  registered (schema w) "$text" = true ∧
  _extensionChains (schema w) !! "$text" = Some ["$inline"; "$text"] ∧
  existsb (λ n, existsb (matches (_extensionChains (schema w)) ["paragraph"] None)
                  (rules w n DISALLOW ++ rules w n ALLOW)) ["$inline"; "$text"] = false ∧
  (checkQuery query w).1 = Throw TypeError.
Proof. repeat split; vm_compute; reflexivity. Qed.

(** C2: an empty rule path is satisfied by every candidate path, and
    [greedy] says so of the path [paragraph]; yet on the item [$block]
    with the single allow path [[]], [_hasMatchingPath] throws a
    [TypeError] when [paragraph] is not registered, and so does
    [checkQuery]: the scan reads the chain of every candidate name, also
    when nothing remains to consume. *)
Theorem empty_rule_path_throws_on_unregistered_name :
  let w := run_calls (new_Schema [[]; ["paragraph"]])
             [Call_allow (SchemaQuery.mk "$block" (PathArray 0) None)] in
  rules w "$block" ALLOW = [([], None)] ∧
  arrays w !! 1 = Some ["paragraph"] ∧
  satisfied (_extensionChains (schema w)) [] ["paragraph"] = true ∧
  (_hasMatchingPath "$block" ALLOW 1 None w).1 = Throw TypeError ∧
  (checkQuery (SchemaQuery.mk "$block" (PathArray 1) None) w).1 = Throw TypeError.
Proof. repeat split; vm_compute; reflexivity. Qed.

(** C4: the match test has an error condition.  In a new schema the
    item [$inline] has one allow path; on the candidate path [paragraph],
    a name that is not registered, [_hasMatchingPath] throws a
    [TypeError].  For an attribute that no path is registered for, and on
    an item without paths, it returns [false] on the same candidate
    path. *)
Theorem hasMatchingPath_throws_on_unregistered_name :
  let w := new_Schema [["paragraph"]] in
  rules w "$inline" ALLOW = [(["$block"], None)] ∧
  arrays w !! 0 = Some ["paragraph"] ∧
  _items (schema w) !! "paragraph" = None ∧
  (_hasMatchingPath "$inline" ALLOW 0 None w).1 = Throw TypeError ∧
  (_hasMatchingPath "$inline" ALLOW 0 (Some "bold") w).1 = Ok false ∧
  (_hasMatchingPath "$block" ALLOW 0 None w).1 = Ok false.
Proof. repeat split; vm_compute; reflexivity. Qed.

(** C5: registration is not atomic on the empty name.  In a new schema,
    [registerItem( '', '' )] passes the two checks, the base being
    falsy, stores the item, and then finds the base registered and reads
    its chain, which is [undefined]: it throws a [TypeError], not
    [schema-no-item], and leaves the item in [_items] without a chain.
    On another new name the empty base is ignored. *)
Theorem registerItem_empty_name_is_not_atomic :
  let w := new_Schema [] in
  let r := registerItem "" (Some "") w in
  _items (schema w) !! "" = None ∧
  r.1 = Throw TypeError ∧
  _items (schema r.2) !! "" = Some (mkSchemaItem [] []) ∧
  _extensionChains (schema r.2) !! "" = None ∧
  (registerItem "x" (Some "") w).1 = Ok ().
Proof. repeat split; vm_compute; reflexivity. Qed.

(** ** Greedy consumption finds every alignment *)

Lemma greedy_aligned (chains : gmap string (list string)) (R C : list string) :
  greedy chains R C = [] ↔ aligned chains R C.
Proof.
  split.
  - revert R. induction C as [| c C IH]; intros R; simpl.
    + intros ->. exists []. split; [constructor | constructor].
    + destruct R as [| r R]; [intros _; exists []; split; [apply sublist_nil_l | constructor] |].
      destruct (is_a chains c r) eqn:Hcr; intros Hg.
      * destruct (IH _ Hg) as (C' & Hsub & Hall).
        exists (c :: C'). split; [by apply sublist_skip | by constructor].
      * destruct (IH _ Hg) as (C' & Hsub & Hall).
        exists C'. split; [by apply sublist_cons | done].
  - intros (C' & Hsub & Hall). revert R C' Hsub Hall.
    induction C as [| c C IH]; intros R C' Hsub Hall.
    + apply sublist_nil_r in Hsub as ->. by apply Forall2_nil_inv_l in Hall as ->.
    + destruct R as [| r R]; [done |]. simpl.
      apply Forall2_cons_inv_r in Hall as (c' & C'' & Hc' & Hall & ->).
      apply sublist_cons_r in Hsub as [Hsub | (C0 & [= <- <-] & Hsub)].
      * destruct (is_a chains c r).
        -- apply (IH R C''); [| done].
           etrans; [| exact Hsub]. by apply sublist_cons.
        -- apply (IH (r :: R) (c' :: C'')); [done | by constructor].
      * rewrite Hc'. by apply (IH R C'').
Qed.

Lemma known_sublist (chains : gmap string (list string)) (C C' : list string) :
  C `sublist_of` C' → known chains C' = true → known chains C = true.
Proof.
  induction 1 as [| c C C' _ IH | c C C' _ IH]; simpl; [done | |].
  - intros [Hc HC]%andb_prop. by rewrite Hc, IH.
  - intros [_ HC]%andb_prop. by apply IH.
Qed.

(** X11: on a candidate path whose names all have a chain, the scan of
    [_hasMatchingPath] misses no match: the test is [true] exactly when
    a path of the item, registered for the attribute, has an alignment
    in the candidate path.  Consuming greedily, without going back,
    loses nothing. *)
Theorem hasMatchingPath_finds_every_alignment (w : World) (this : ItemRef)
    (item : SchemaItem) (type : PathType) (checkPath : loc) (attr : option string)
    (C : list string) :
  heap_wf w →
  _items (schema w) !! this = Some item →
  arrays w !! checkPath = Some C →
  known (_extensionChains (schema w)) C = true →
  (_hasMatchingPath this type checkPath attr w).1 = Ok true ↔
  ∃ r, r ∈ rules w this type ∧ r.2 = attr ∧ aligned (_extensionChains (schema w)) r.1 C.
Proof.
  intros Hwf Hi HC Hk.
  destruct (hasMatchingPath_total w this item type checkPath attr C Hwf Hi HC) as [Hres _].
  rewrite (Hres Hk). split.
  - intros [= Hex]. apply existsb_elem_of in Hex as (r & Hr & Hm).
    apply andb_prop in Hm as [Ha Hs].
    exists r. split; [done |]. split; [by apply bool_decide_eq_true in Ha |].
    apply greedy_aligned. by apply bool_decide_eq_true in Hs.
  - intros (r & Hr & Ha & Hal). f_equal. apply existsb_elem_of.
    exists r. split; [done |]. unfold matches, satisfied.
    rewrite !bool_decide_eq_true_2; [done | by apply greedy_aligned | done].
Qed.

Lemma hasMatchingPath_finds_every_alignment_witness :
  let w := run_calls (new_Schema [["div"; "p"; "div"; "header"]])
             [Call_registerItem "div" (Some "$block");
              Call_registerItem "p" (Some "$block");
              Call_registerItem "header" (Some "$block");
              Call_allow (SchemaQuery.mk "$text" (PathString "div header") None)] in
  (_hasMatchingPath "$text" ALLOW 0 None w).1 = Ok true ↔
  ∃ r, r ∈ rules w "$text" ALLOW ∧ r.2 = None ∧
       aligned (_extensionChains (schema w)) r.1 ["div"; "p"; "div"; "header"].
Proof.
  intros w.
  apply (hasMatchingPath_finds_every_alignment w "$text"
           (mkSchemaItem [mkPathEntry 4 None] []) ALLOW 0 None).
  - apply run_calls_heap_wf, new_Schema_wf.
  - vm_compute. reflexivity.
  - vm_compute. reflexivity.
  - vm_compute. reflexivity.
Defined.

(** X12: a match survives more ancestors.  When a path of the given kind
    matches the candidate path [C], it matches every candidate path that
    has the names of [C] in their order, with other names, all with a
    chain, anywhere among them. *)
Theorem hasMatchingPath_survives_insertion (w : World) (this : ItemRef)
    (item : SchemaItem) (type : PathType) (checkPath checkPath' : loc)
    (attr : option string) (C C' : list string) :
  heap_wf w →
  _items (schema w) !! this = Some item →
  arrays w !! checkPath = Some C →
  arrays w !! checkPath' = Some C' →
  C `sublist_of` C' →
  known (_extensionChains (schema w)) C' = true →
  (_hasMatchingPath this type checkPath attr w).1 = Ok true →
  (_hasMatchingPath this type checkPath' attr w).1 = Ok true.
Proof.
  intros Hwf Hi HC HC' Hsub Hk'.
  pose proof (known_sublist _ _ _ Hsub Hk') as Hk.
  destruct (hasMatchingPath_total w this item type checkPath attr C Hwf Hi HC) as [Hres _].
  destruct (hasMatchingPath_total w this item type checkPath' attr C' Hwf Hi HC')
    as [Hres' _].
  rewrite (Hres Hk), (Hres' Hk'). intros [= Hex]. f_equal.
  apply existsb_elem_of in Hex as (r & Hr & Hm). apply existsb_elem_of.
  exists r. split; [done |].
  apply andb_prop in Hm as [Ha Hs]. unfold matches. rewrite Ha. simpl.
  apply bool_decide_eq_true in Hs. apply bool_decide_eq_true.
  apply greedy_aligned. apply greedy_aligned in Hs as (C0 & Hsub0 & Hall).
  exists C0. split; [by etrans | done].
Qed.

Lemma hasMatchingPath_survives_insertion_witness :
  let w := run_calls (new_Schema [["div"; "header"]; ["$block"; "div"; "p"; "header"]])
             [Call_registerItem "div" (Some "$block");
              Call_registerItem "p" (Some "$block");
              Call_registerItem "header" (Some "$block");
              Call_allow (SchemaQuery.mk "$text" (PathString "$block header") None)] in
  (_hasMatchingPath "$text" ALLOW 1 None w).1 = Ok true.
Proof.
  intros w.
  apply (hasMatchingPath_survives_insertion w "$text"
           (mkSchemaItem [mkPathEntry 5 None] []) ALLOW 0 1 None
           ["div"; "header"] ["$block"; "div"; "p"; "header"]).
  - apply run_calls_heap_wf, new_Schema_wf.
  - vm_compute. reflexivity.
  - vm_compute. reflexivity.
  - vm_compute. reflexivity.
  - apply sublist_cons, sublist_skip, sublist_cons, sublist_skip, sublist_nil.
  - vm_compute. reflexivity.
  - vm_compute. reflexivity.
Defined.

(** ** When [checkQuery] throws *)

Lemma paths_for_nil (w : World) (n : string) (type : PathType) (attr : option string) :
  paths_for w n type attr = [] ↔ ∀ r, r ∈ rules w n type → r.2 ≠ attr.
Proof.
  unfold paths_for. induction (rules w n type) as [| r rs IH].
  - split; [by intros _ r ?%elem_of_nil | done].
  - rewrite filter_cons. destruct (decide (r.2 = attr)) as [Ha | Ha].
    + split; [done |]. intros Hall. destruct (Hall r); [apply list_elem_of_here | done].
    + rewrite IH. split.
      * intros Hall r' [-> | Hr']%elem_of_cons; [done | by apply Hall].
      * intros Hall r' Hr'. by apply Hall, list_elem_of_further.
Qed.

Lemma paths_for_nonempty (w : World) (n : string) (type : PathType)
    (attr : option string) :
  paths_for w n type attr ≠ [] ↔ ∃ r, r ∈ rules w n type ∧ r.2 = attr.
Proof.
  split.
  - unfold paths_for.
    destruct (filter (λ r, r.2 = attr) (rules w n type)) as [| r rs] eqn:Hf; [done |].
    intros _. assert (r ∈ filter (λ r, r.2 = attr) (rules w n type)) as Hr
      by (rewrite Hf; apply list_elem_of_here).
    apply list_elem_of_filter in Hr as [Ha Hr]. eauto.
  - intros (r & Hr & Ha) Hnil. by apply (proj1 (paths_for_nil _ _ _ _) Hnil r).
Qed.


Lemma any_item_unknown (chains : gmap string (list string))
    (rp : string → list (list string)) (refs : list string) (C : list string) :
  known chains C = false →
  any_item chains rp refs C =
    if existsb (λ n, bool_decide (rp n ≠ [])) refs then Throw TypeError else Ok false.
Proof.
  intros Hk. induction refs as [| n refs IH]; simpl; [done |].
  unfold match_result at 1. rewrite Hk.
  destruct (rp n) as [| R Rs]; case_bool_decide; try done; simpl; exact IH.
Qed.

Lemma schema_wf_query (w : World) (E : string) :
  schema_wf w → is_Some (_items (schema w) !! E) →
  ∃ chain, _extensionChains (schema w) !! E = Some chain ∧
    forallb (registered (schema w)) chain = true ∧ E ∈ chain.
Proof.
  intros [Hkeys Hchains] Hreg.
  destruct (proj1 (Hkeys _) Hreg) as [chain Hchain]. exists chain.
  destruct (Hchains _ _ Hchain) as [Hall Hlast]. split; [done |]. split.
  - apply forallb_forall. intros n Hn%list_elem_of_In. apply registered_true.
    by apply (proj1 (Forall_forall _ _) Hall).
  - apply last_Some in Hlast as (chain' & ->). apply elem_of_app. right.
    apply list_elem_of_here.
Qed.



(** X10: the one error of [checkQuery].  In a well-formed state
    [checkQuery] throws nothing but a [TypeError], and it throws it
    exactly when the queried entity is registered, a name of the
    candidate path has no extension chain, and an entity of the chain of
    the queried entity has a rule for the attribute of the query.  In
    every other case it returns a boolean. *)
Theorem checkQuery_throws_exactly (w : World) (query : SchemaQuery.t) (C : list string) :
  heap_wf w → schema_wf w →
  names_of w (SchemaQuery.inside query) = Some C →
  ((checkQuery query w).1 = Throw TypeError ↔
     is_Some (_items (schema w) !! SchemaQuery.name query) ∧
     known (_extensionChains (schema w)) C = false ∧
     ∃ chain n type r,
       _extensionChains (schema w) !! SchemaQuery.name query = Some chain ∧
       n ∈ chain ∧ r ∈ rules w n type ∧ r.2 = SchemaQuery.attribute query) ∧
  (∀ e, (checkQuery query w).1 = Throw e → e = TypeError).
Proof.
  intros Hwf Hs HC. rewrite (checkQuery_result w query C) by done.
  unfold query_result.
  destruct (registered (schema w) (SchemaQuery.name query)) eqn:Hreg; simpl.
  2:{ apply registered_false in Hreg. split; [| done].
      split; [done |]. intros ([item Hi] & _). congruence. }
  apply registered_true in Hreg.
  destruct (schema_wf_query w _ Hs Hreg) as (chain & Hchain & Hall & _).
  rewrite Hchain, Hall.
  destruct (known (_extensionChains (schema w)) C) eqn:Hk.
  { rewrite !any_item_known by done.
    split; [| by intros e; destruct (existsb _ chain)].
    split; [by destruct (existsb _ chain) | by intros (_ & ? & _)]. }
  rewrite !any_item_unknown by done.
  set (some type := existsb (λ n, bool_decide
         (paths_for w n type (SchemaQuery.attribute query) ≠ [])) chain).
  assert (∀ type, some type = true ↔
            ∃ n r, n ∈ chain ∧ r ∈ rules w n type ∧ r.2 = SchemaQuery.attribute query)
    as Hsome.
  { intros type. unfold some. rewrite existsb_elem_of. split.
    - intros (n & Hn & Hne). apply bool_decide_eq_true in Hne.
      apply paths_for_nonempty in Hne as (r & Hr & Ha). eauto.
    - intros (n & r & Hn & Hr & Ha). exists n. split; [done |].
      apply bool_decide_eq_true, paths_for_nonempty. eauto. }
  fold (some DISALLOW). fold (some ALLOW).
  split.
  - split.
    + intros Hthrow. split; [done |]. split; [done |]. exists chain.
      destruct (some DISALLOW) eqn:HD.
      * apply Hsome in HD as (n & r & ? & ? & ?). by exists n, DISALLOW, r.
      * destruct (some ALLOW) eqn:HA; [| done].
        apply Hsome in HA as (n & r & ? & ? & ?). by exists n, ALLOW, r.
    + intros (_ & _ & chain' & n & type & r & Hc' & Hn & Hr & Ha).
      assert (chain' = chain) as -> by congruence.
      assert (some type = true) as Hty by (apply Hsome; eauto).
      destruct type; [| by rewrite Hty].
      destruct (some DISALLOW); [done |]. by rewrite Hty.
  - intros e. destruct (some DISALLOW); [by intros [= <-] |].
    destruct (some ALLOW); [by intros [= <-] | done].
Qed.

Lemma checkQuery_throws_exactly_witness :
  let w := new_Schema [] in
  let query := SchemaQuery.mk "$text" (PathString "paragraph") None in
  ((checkQuery query w).1 = Throw TypeError ↔
     is_Some (_items (schema w) !! "$text") ∧
     known (_extensionChains (schema w)) ["paragraph"] = false ∧
     ∃ chain n type r,
       _extensionChains (schema w) !! "$text" = Some chain ∧
       n ∈ chain ∧ r ∈ rules w n type ∧ r.2 = None) ∧
  (∀ e, (checkQuery query w).1 = Throw e → e = TypeError).
Proof.
  intros w query.
  apply (checkQuery_throws_exactly w query ["paragraph"]).
  - apply new_Schema_wf.
  - apply new_Schema_wf.
  - reflexivity.
Defined.

(** ** A rule and the query it was written for *)




Lemma names_of_prefix (w w' : World) (p : PathArg) (P : list string) :
  arrays w `prefix_of` arrays w' → names_of w p = Some P → names_of w' p = Some P.
Proof.
  intros Hpre. destruct p as [s | l]; [done |]. simpl.
  intros Hl. by eapply prefix_lookup_Some.
Qed.





(** ** Adding a rule *)

Lemma query_result_true (s : Schema) (rp : string → PathType → list (list string))
    (E : string) (C : list string) :
  query_result s rp E C = Ok true ↔
  registered s E = true ∧ known (_extensionChains s) C = true ∧
  ∃ chain, _extensionChains s !! E = Some chain ∧
    forallb (registered s) chain = true ∧
    existsb (λ n, existsb (λ R, satisfied (_extensionChains s) R C) (rp n DISALLOW)) chain
      = false ∧
    existsb (λ n, existsb (λ R, satisfied (_extensionChains s) R C) (rp n ALLOW)) chain
      = true.
Proof.
  unfold query_result.
  destruct (registered s E); simpl; [| split; [done | by intros [? _]]].
  destruct (_extensionChains s !! E) as [chain|];
    [| split; [done | by intros (_ & _ & ? & ? & _)]].
  destruct (forallb (registered s) chain) eqn:Hall.
  2:{ split; [done |]. intros (_ & _ & chain' & [= <-] & Hall' & _). congruence. }
  destruct (known (_extensionChains s) C) eqn:Hk.
  - rewrite !any_item_known by done.
    destruct (existsb _ chain) eqn:HD.
    + split; [done |]. intros (_ & _ & chain' & [= <-] & _ & HD' & _). congruence.
    + split.
      * intros [= HA]. repeat split; try done. exists chain. by rewrite HD, HA.
      * intros (_ & _ & chain' & [= <-] & _ & _ & ->). done.
  - rewrite !any_item_unknown by done. split; [| by intros (_ & ? & _)].
    by repeat destruct (existsb _ chain).
Qed.

Lemma paths_for_after_rule_call (w : World) (c : call) (n : string) (type : PathType)
    (attr : option string) :
  rule_call w c → heap_wf w →
  paths_for (run_call w c) n type attr =
    paths_for w n type attr ++
    (filter (λ r, r.2 = attr) (added_rule w (schema w) c n type)).*1.
Proof.
  intros Hc Hwf.
  destruct (run_rule_call w w c Hc Hwf) as (_ & _ & _ & _ & Hrules); [done |].
  unfold paths_for. by rewrite Hrules, filter_app, fmap_app.
Qed.

Lemma existsb_ext_elem {A : Type} (f g : A → bool) (l : list A) :
  (∀ x, x ∈ l → f x = g x) → existsb f l = existsb g l.
Proof.
  induction l as [| x l IH]; intros Hfg; simpl; [done |].
  rewrite (Hfg x) by apply list_elem_of_here.
  rewrite IH; [done |]. intros y Hy. apply Hfg. by apply list_elem_of_further.
Qed.

Lemma existsb_mono {A : Type} (f g : A → bool) (l : list A) :
  (∀ x, f x = true → g x = true) → existsb f l = true → existsb g l = true.
Proof.
  intros Hfg. rewrite !existsb_exists. intros (x & Hx & Hf). eauto.
Qed.

(** X13: adding a rule moves the answers one way only.  An [allow] never
    turns an answer [true] of [checkQuery] into another outcome, and an
    answer that is [true] after a [disallow] was [true] before it. *)
Theorem rule_addition_is_monotone (w : World) (rule query : SchemaQuery.t)
    (C : list string) :
  heap_wf w →
  is_Some (names_of w (SchemaQuery.inside rule)) →
  names_of w (SchemaQuery.inside query) = Some C →
  ((checkQuery query w).1 = Ok true → (checkQuery query (allow rule w).2).1 = Ok true) ∧
  ((checkQuery query (disallow rule w).2).1 = Ok true → (checkQuery query w).1 = Ok true).
Proof.
  intros Hwf Hrule HC.
  assert (∀ c, rule_call w c →
    (checkQuery query (run_call w c)).1 =
      query_result (schema (run_call w c))
        (λ n type, paths_for w n type (SchemaQuery.attribute query) ++
           (filter (λ r, r.2 = SchemaQuery.attribute query)
              (added_rule w (schema w) c n type)).*1)
        (SchemaQuery.name query) C ∧
    _extensionChains (schema (run_call w c)) = _extensionChains (schema w) ∧
    (∀ n, registered (schema (run_call w c)) n = registered (schema w) n)) as Hafter.
  { intros c Hc.
    destruct (run_rule_call w w c Hc Hwf) as (Hh & Hp & Hch & Hr & _); [done |].
    split; [| done].
    rewrite (checkQuery_result _ query C); [| done | by eapply names_of_prefix].
    unfold query_result.
    destruct (registered _ (SchemaQuery.name query)); [| done]. simpl.
    destruct (_ !! SchemaQuery.name query) as [chain|]; [| done].
    destruct (forallb _ chain); [| done].
    assert (∀ type, any_item (_extensionChains (schema (run_call w c)))
       (λ n, paths_for (run_call w c) n type (SchemaQuery.attribute query)) chain C =
       any_item (_extensionChains (schema (run_call w c)))
       (λ n, paths_for w n type (SchemaQuery.attribute query) ++
          (filter (λ r, r.2 = SchemaQuery.attribute query)
             (added_rule w (schema w) c n type)).*1) chain C) as Heq.
    { intros type. apply any_item_ext. intros n _.
      by apply paths_for_after_rule_call. }
    by rewrite !Heq. }
  rewrite (checkQuery_result w query C) by done.
  split.
  - destruct (Hafter (Call_allow rule) Hrule) as (Hres & Hch & Hr).
    simpl in Hres, Hch, Hr. rewrite Hres.
    rewrite !query_result_true. rewrite Hch, Hr.
    intros (Hreg & Hk & chain & Hchain & Hall & HD & HA).
    split; [done |]. split; [done |]. exists chain. split; [done |]. split.
    { rewrite <- Hall. apply forallb_ext_elem. by intros. }
    split.
    + rewrite <- HD. apply existsb_ext_elem. intros n _. simpl.
      rewrite bool_decide_eq_false_2 by (by intros [_ ?]). simpl.
      by rewrite app_nil_r.
    + eapply existsb_mono; [| exact HA]. intros n Hn. simpl in Hn.
      rewrite existsb_app. by rewrite Hn.
  - destruct (Hafter (Call_disallow rule) Hrule) as (Hres & Hch & Hr).
    simpl in Hres, Hch, Hr. rewrite Hres.
    rewrite !query_result_true. rewrite Hch, Hr.
    intros (Hreg & Hk & chain & Hchain & Hall & HD & HA).
    split; [done |]. split; [done |]. exists chain. split; [done |]. split.
    { rewrite <- Hall. apply forallb_ext_elem. by intros. }
    split.
    + destruct (existsb _ chain) eqn:HD' in |- *; [| done].
      rewrite <- HD. symmetry. eapply existsb_mono; [| exact HD'].
      intros n Hn. simpl in Hn. rewrite existsb_app. by rewrite Hn.
    + rewrite <- HA. symmetry. apply existsb_ext_elem. intros n _. simpl.
      rewrite bool_decide_eq_false_2 by (by intros [_ ?]). simpl.
      by rewrite app_nil_r.
Qed.

Lemma rule_addition_is_monotone_witness :
  let w := new_Schema [] in
  let rule := SchemaQuery.mk "$inline" (PathString "$block $block") None in
  let query := SchemaQuery.mk "$text" (PathString "$block") None in
  ((checkQuery query w).1 = Ok true → (checkQuery query (allow rule w).2).1 = Ok true) ∧
  ((checkQuery query (disallow rule w).2).1 = Ok true → (checkQuery query w).1 = Ok true).
Proof.
  intros w rule query.
  apply (rule_addition_is_monotone w rule query ["$block"]).
  - apply new_Schema_wf.
  - simpl. eauto.
  - reflexivity.
Defined.

(** ** [inside] as a string or as an array *)

(** X8: a string of names separated by spaces and the array of these
    names are the same [inside].  [checkQuery] gives the same outcome on
    both, and [allow] and [disallow] have the same outcome and leave the
    same rules. *)
Theorem inside_string_or_array (w : World) (name s : string) (l : loc)
    (attr : option string) :
  heap_wf w →
  arrays w !! l = Some (split s) →
  let query_s := SchemaQuery.mk name (PathString s) attr in
  let query_a := SchemaQuery.mk name (PathArray l) attr in
  (checkQuery query_s w).1 = (checkQuery query_a w).1 ∧
  (allow query_s w).1 = (allow query_a w).1 ∧
  (disallow query_s w).1 = (disallow query_a w).1 ∧
  (∀ n type, rules (allow query_s w).2 n type = rules (allow query_a w).2 n type) ∧
  (∀ n type, rules (disallow query_s w).2 n type = rules (disallow query_a w).2 n type).
Proof.
  intros Hwf Hl query_s query_a.
  assert (rule_call w (Call_allow query_s) ∧ rule_call w (Call_allow query_a) ∧
          rule_call w (Call_disallow query_s) ∧ rule_call w (Call_disallow query_a))
    as (Has & Haa & Hds & Hda) by (simpl; rewrite Hl; by eauto).
  split; [| split; [| split; [| split]]].
  - by rewrite (checkQuery_result w query_s (split s)),
      (checkQuery_result w query_a (split s)).
  - destruct (_items (schema w) !! name) as [item|] eqn:Hi.
    + rewrite !allow_registered by (simpl; eauto). simpl.
      by rewrite (addPath_run w name M_allowed (PathString s) attr item (split s)),
        (addPath_run w name M_allowed (PathArray l) attr item (split s)).
    + by rewrite !allow_unknown.
  - destruct (_items (schema w) !! name) as [item|] eqn:Hi.
    + rewrite !disallow_registered by (simpl; eauto). simpl.
      by rewrite (addPath_run w name M_disallowed (PathString s) attr item (split s)),
        (addPath_run w name M_disallowed (PathArray l) attr item (split s)).
    + by rewrite !disallow_unknown.
  - intros n type.
    destruct (run_rule_call w w _ Has Hwf) as (_ & _ & _ & _ & Hrs); [done |].
    destruct (run_rule_call w w _ Haa Hwf) as (_ & _ & _ & _ & Hra); [done |].
    simpl in Hrs, Hra. rewrite Hrs, Hra. simpl. by rewrite Hl.
  - intros n type.
    destruct (run_rule_call w w _ Hds Hwf) as (_ & _ & _ & _ & Hrs); [done |].
    destruct (run_rule_call w w _ Hda Hwf) as (_ & _ & _ & _ & Hra); [done |].
    simpl in Hrs, Hra. rewrite Hrs, Hra. simpl. by rewrite Hl.
Qed.

Lemma inside_string_or_array_witness :
  let w := run_calls (new_Schema [["div"; "p"]])
             [Call_registerItem "div" (Some "$block");
              Call_registerItem "p" (Some "$block")] in
  let query_s := SchemaQuery.mk "$text" (PathString "div p") None in
  let query_a := SchemaQuery.mk "$text" (PathArray 0) None in
  (checkQuery query_s w).1 = (checkQuery query_a w).1 ∧
  (allow query_s w).1 = (allow query_a w).1 ∧
  (disallow query_s w).1 = (disallow query_a w).1 ∧
  (∀ n type, rules (allow query_s w).2 n type = rules (allow query_a w).2 n type) ∧
  (∀ n type, rules (disallow query_s w).2 n type = rules (disallow query_a w).2 n type).
Proof.
  intros w. apply (inside_string_or_array w "$text" "div p" 0 None).
  - apply run_calls_heap_wf, new_Schema_wf.
  - vm_compute. reflexivity.
Defined.

(** ** An entity and its base *)




(** ** What registration throws *)

Lemma base_missing (s : Schema) (isExtending : option string) :
  truthy isExtending &&
    negb (match isExtending with Some b => registered s b | None => false end) = true ↔
  ∃ base, isExtending = Some base ∧ base ≠ EmptyString ∧ _items s !! base = None.
Proof.
  destruct isExtending as [base|]; simpl; [| split; [done | by intros (? & ? & _)]].
  split.
  - intros [Hne Hreg]%andb_prop. exists base. split; [done |].
    apply negb_true_iff in Hne, Hreg. split.
    + by apply bool_decide_eq_false in Hne.
    + by apply registered_false.
  - intros (? & [= <-] & Hne & Hreg).
    rewrite bool_decide_eq_false_2 by done.
    by rewrite (proj2 (registered_false _ _) Hreg).
Qed.

(** X2: the errors of [registerItem].  It throws [schema-item-exists]
    exactly when the name is registered, and [schema-no-item] exactly
    when the name is new and the base is a non-empty string that is not
    registered; a call that throws either leaves the state as it was. *)
Theorem registerItem_errors_exactly (w : World) (itemName : string)
    (isExtending : option string) :
  ((registerItem itemName isExtending w).1 = Throw (CKEditorError schema_item_exists) ↔
     is_Some (_items (schema w) !! itemName)) ∧
  ((registerItem itemName isExtending w).1 = Throw (CKEditorError schema_no_item) ↔
     _items (schema w) !! itemName = None ∧
     ∃ base, isExtending = Some base ∧ base ≠ EmptyString ∧
             _items (schema w) !! base = None) ∧
  (∀ message, (registerItem itemName isExtending w).1 = Throw (CKEditorError message) →
     (registerItem itemName isExtending w).2 = w).
Proof.
  split; [| split].
  - rewrite registerItem_unfold.
    destruct (registered (schema w) itemName) eqn:Hreg.
    + apply registered_true in Hreg. by split.
    + apply registered_false in Hreg. split; [| rewrite Hreg; by intros [? ?]].
      destruct (truthy isExtending && _); [done |].
      destruct (match isExtending with Some b => _ | None => _ end); [| done].
      by destruct (b ← isExtending; _).
  - rewrite registerItem_unfold. rewrite <- base_missing.
    destruct (registered (schema w) itemName) eqn:Hreg.
    + apply registered_true in Hreg. split; [done |]. intros [Hnone _].
      rewrite Hnone in Hreg. by destruct Hreg.
    + apply registered_false in Hreg.
      destruct (truthy isExtending && _); [by split |].
      split; [| by intros [_ ?]].
      destruct (match isExtending with Some b => _ | None => _ end); [| done].
      by destruct (b ← isExtending; _).
  - intros message Hthrow.
    destruct (registerItem itemName isExtending w) as [r w'] eqn:Hrun. simpl in *.
    subst r. by eapply registerItem_CKEditorError.
Qed.

(** X3: where registration is not atomic.  In a well-formed state
    [registerItem] ends in a [TypeError] in one case only: the name and
    the base are both the empty string, and it is not registered.  The
    item is then stored without a chain. *)
Theorem registerItem_TypeError_exactly (w : World) (itemName : string)
    (isExtending : option string) :
  schema_wf w →
  ((registerItem itemName isExtending w).1 = Throw TypeError ↔
     itemName = EmptyString ∧ isExtending = Some EmptyString ∧
     _items (schema w) !! EmptyString = None) ∧
  ((registerItem itemName isExtending w).1 = Throw TypeError →
     is_Some (_items (schema (registerItem itemName isExtending w).2) !! itemName) ∧
     _extensionChains (schema (registerItem itemName isExtending w).2) !! itemName = None).
Proof.
  intros [Hkeys Hchains]. rewrite registerItem_unfold.
  set (w1 := set_items (<[itemName := mkSchemaItem [] []]>) w).
  destruct (registered (schema w) itemName) eqn:Hreg.
  { apply registered_true in Hreg. split; [| done]. split; [done |].
    intros (-> & _ & Hnone). rewrite Hnone in Hreg. by destruct Hreg. }
  apply registered_false in Hreg.
  assert (_extensionChains (schema w) !! itemName = None) as Hnochain.
  { apply eq_None_not_Some. intros Hc%Hkeys. rewrite Hreg in Hc. by destruct Hc. }
  assert (registered (schema w1) itemName = true) as Hnow
    by (apply registered_true; simpl; rewrite lookup_insert_eq; eauto).
  destruct (truthy isExtending && _) eqn:Hmiss.
  { split; [| done]. split; [done |]. intros (_ & -> & _). done. }
  destruct isExtending as [base|]; cbv beta iota.
  2:{ split; [| done]. split; [done |]. by intros (_ & ? & _). }
  change (Some base ≫= λ b, _extensionChains (schema w) !! b)
    with (_extensionChains (schema w) !! base).
  destruct (decide (base = itemName)) as [-> | Hne].
  - rewrite Hnow, Hnochain. simpl.
    rewrite (proj2 (registered_false _ _) Hreg) in Hmiss. simpl in Hmiss.
    rewrite andb_true_r in Hmiss. apply negb_false_iff, bool_decide_eq_true in Hmiss.
    subst itemName. split; [by split |]. intros _.
    split; [rewrite lookup_insert_eq; eauto | done].
  - assert (registered (schema w1) base = registered (schema w) base) as ->.
    { unfold registered. simpl. by rewrite lookup_insert_ne. }
    destruct (registered (schema w) base) eqn:Hbase.
    + apply registered_true, Hkeys in Hbase as [chain ->].
      split; [| done]. split; [done |]. intros (-> & [= ->] & _). done.
    + split; [| done]. split; [done |]. intros (-> & [= ->] & _). done.
Qed.

Lemma registerItem_TypeError_exactly_witness :
  let w := new_Schema [] in
  ((registerItem "" (Some "") w).1 = Throw TypeError ↔
     ""%string = EmptyString ∧ Some ""%string = Some EmptyString ∧
     _items (schema w) !! EmptyString = None) ∧
  ((registerItem "" (Some "") w).1 = Throw TypeError →
     is_Some (_items (schema (registerItem "" (Some "") w).2) !! "") ∧
     _extensionChains (schema (registerItem "" (Some "") w).2) !! "" = None).
Proof.
  apply (registerItem_TypeError_exactly (new_Schema []) "" (Some ""%string)).
  apply new_Schema_wf.
Defined.

(** ** What every call keeps *)

Lemma addPath_dangling (w : World) (this : ItemRef) (member : Member) (p : PathArg)
    (attr : option string) :
  names_of w p = None → (_addPath this member p attr w).2 = w.
Proof.
  destruct p as [s | l]; [done |]. simpl. intros Hl.
  unfold _addPath. rewrite (bind_ok _ _ w w l) by done.
  unfold slice. rewrite !bind_run. unfold read. by rewrite Hl.
Qed.

Lemma run_call_grows (w : World) (c : call) :
  heap_wf w →
  arrays w `prefix_of` arrays (run_call w c) ∧
  (∀ n, registered (schema w) n = true → registered (schema (run_call w c)) n = true) ∧
  (∀ n type, rules w n type `prefix_of` rules (run_call w c) n type).
Proof.
  intros Hwf.
  assert (∀ c', rule_call w c' →
    arrays w `prefix_of` arrays (run_call w c') ∧
    (∀ n, registered (schema w) n = true →
          registered (schema (run_call w c')) n = true) ∧
    (∀ n type, rules w n type `prefix_of` rules (run_call w c') n type)) as Hrule.
  { intros c' Hc'.
    destruct (run_rule_call w w c' Hc' Hwf) as (_ & Hp & _ & Hr & Hrules); [done |].
    split; [done |]. split; [intros n; by rewrite Hr |].
    intros n type. rewrite Hrules. by apply prefix_app_r. }
  assert (∀ w', keeps (length (arrays w)) w w' →
    arrays w `prefix_of` arrays w' ∧
    (∀ n, registered (schema w) n = true → registered (schema w') n = true) ∧
    (∀ n type, rules w n type `prefix_of` rules w' n type)) as Hkeeps.
  { intros w' Hk. split; [by apply keeps_prefix |]. split.
    - destruct Hk as (-> & _). done.
    - intros n type. by rewrite (keeps_rules w w'). }
  destruct c as [itemName isExtending | query | query | query | position name attr];
    simpl.
  - destruct (registerItem_frame w itemName isExtending) as (Ha & Hold & _).
    split; [by rewrite Ha |]. split.
    + intros n [item Hn]%registered_true. apply registered_true. eauto.
    + intros n type. unfold rules.
      destruct (_items (schema w) !! n) as [item|] eqn:Hn; [| apply prefix_nil].
      by rewrite (Hold n item Hn), Ha.
  - destruct (names_of w (SchemaQuery.inside query)) as [P|] eqn:HP.
    + apply (Hrule (Call_allow query)). simpl. eauto.
    + destruct (_items (schema w) !! SchemaQuery.name query) eqn:Hq.
      * rewrite allow_registered by eauto. by rewrite addPath_dangling.
      * by rewrite allow_unknown.
  - destruct (names_of w (SchemaQuery.inside query)) as [P|] eqn:HP.
    + apply (Hrule (Call_disallow query)). simpl. eauto.
    + destruct (_items (schema w) !! SchemaQuery.name query) eqn:Hq.
      * rewrite disallow_registered by eauto. by rewrite addPath_dangling.
      * by rewrite disallow_unknown.
  - apply Hkeeps. apply (hoare_checkQuery _ query w (le_n _)).
  - apply Hkeeps. apply (hoare_checkAtPosition _ position name attr w (le_n _)).
Qed.

(** X4: nothing is taken back.  Whatever calls are made, whether they
    return or throw, a registered name stays registered, the rules of an
    entity stay where they are with what they hold, new ones coming
    after them, and no array that was in the store is written: the
    schema has no way to unregister, to drop a rule, or to touch an
    array of its caller. *)
Theorem nothing_is_removed (w : World) (cs : list call) :
  heap_wf w →
  arrays w `prefix_of` arrays (run_calls w cs) ∧
  (∀ n, registered (schema w) n = true → registered (schema (run_calls w cs)) n = true) ∧
  (∀ n type, rules w n type `prefix_of` rules (run_calls w cs) n type).
Proof.
  revert w. induction cs as [| c cs IH]; intros w Hwf; simpl; [done |].
  destruct (run_call_grows w c Hwf) as (Ha & Hr & Hrules).
  destruct (IH (run_call w c) (run_call_heap_wf w c Hwf)) as (Ha' & Hr' & Hrules').
  split; [by etrans |]. split; [intros n Hn; by apply Hr', Hr |].
  intros n type. etrans; [apply Hrules | apply Hrules'].
Qed.

Lemma nothing_is_removed_witness :
  let w := new_Schema [["$block"; "p"]] in
  let cs := [Call_registerItem "p" (Some "$block");
             Call_registerItem "p" None;
             Call_disallow (SchemaQuery.mk "$inline" (PathArray 0) None);
             Call_checkQuery (SchemaQuery.mk "$text" (PathArray 0) None);
             Call_allow (SchemaQuery.mk "ghost" (PathString "p") None)] in
  arrays w `prefix_of` arrays (run_calls w cs) ∧
  (∀ n, registered (schema w) n = true → registered (schema (run_calls w cs)) n = true) ∧
  (∀ n type, rules w n type `prefix_of` rules (run_calls w cs) n type).
Proof.
  intros w cs. apply (nothing_is_removed w cs). apply new_Schema_wf.
Defined.

Lemma registerItem_not_dangling (w : World) (itemName : string)
    (isExtending : option string) :
  (registerItem itemName isExtending w).1 ≠ Throw DanglingReference.
Proof.
  rewrite registerItem_unfold.
  destruct (registered (schema w) itemName); [done |].
  destruct (truthy isExtending && _); [done |].
  destruct (match isExtending with Some b => _ | None => _ end); [| done].
  by destruct (b ← isExtending; _).
Qed.

Lemma run_call_schema_wf (w : World) (c : call) :
  schema_wf w →
  match c with
  | Call_registerItem itemName isExtending =>
      (registerItem itemName isExtending w).1 ≠ Throw TypeError
  | _ => True
  end →
  schema_wf (run_call w c).
Proof.
  intros Hs Hclean.
  destruct c as [itemName isExtending | query | query | query | position name attr];
    simpl.
  - pose proof (registerItem_not_dangling w itemName isExtending) as Hnd.
    destruct (registerItem itemName isExtending w) as [[[] | [message | |]] w'] eqn:Hrun;
      simpl in *; try done.
    + by eapply registerItem_schema_wf.
    + by rewrite (registerItem_CKEditorError _ _ _ _ _ Hrun).
  - by apply allow_wf.
  - by apply disallow_wf.
  - destruct (hoare_checkQuery 0 query w (Nat.le_0_l _)) as [[Heq _] _].
    unfold schema_wf. by rewrite Heq.
  - destruct (hoare_checkAtPosition 0 position name attr w (Nat.le_0_l _)) as [[Heq _] _].
    unfold schema_wf. by rewrite Heq.
Qed.

(** X1: the registry stays well formed.  [new Schema()] returns, and in
    every state reached from it by calls of [registerItem], [allow],
    [disallow], [checkQuery] and [checkAtPosition], returning or
    throwing, none of which is a [registerItem] that ends in a
    [TypeError]: the items and the chains have the same keys, every
    chain ends with its own entity and names registered entities only,
    and every registered path refers to an array of the store. *)
Theorem reachable_states_are_well_formed (h : list (list string)) (cs : list call) :
  runs_clean (new_Schema h) cs →
  (constructor (mkWorld (mkSchema ∅ ∅) h)).1 = Ok () ∧
  schema_wf (run_calls (new_Schema h) cs) ∧
  heap_wf (run_calls (new_Schema h) cs).
Proof.
  intros Hclean. split; [| split].
  - by destruct (constructor_run (mkWorld (mkSchema ∅ ∅) h)) as (w' & -> & _).
  - destruct (new_Schema_wf h) as [_ Hs]. revert Hs Hclean.
    generalize (new_Schema h). induction cs as [| c cs IH]; intros w Hs Hclean; [done |].
    destruct Hclean as [Hc Hclean]. simpl. apply IH; [| done].
    by apply run_call_schema_wf.
  - apply run_calls_heap_wf, new_Schema_wf.
Qed.

Lemma reachable_states_are_well_formed_witness :
  let cs := [Call_registerItem "p" (Some "$block");
             Call_registerItem "p" None;
             Call_registerItem "x" (Some "nonexistent");
             Call_registerItem "" None;
             Call_registerItem "" (Some "");
             Call_allow (SchemaQuery.mk "$text" (PathString "p") (Some "bold"));
             Call_checkQuery (SchemaQuery.mk "$text" (PathString "ghost") (Some "bold"))] in
  (constructor (mkWorld (mkSchema ∅ ∅) [])).1 = Ok () ∧
  schema_wf (run_calls (new_Schema []) cs) ∧
  heap_wf (run_calls (new_Schema []) cs).
Proof.
  intros cs. apply (reachable_states_are_well_formed [] cs).
  unfold cs. cbn [runs_clean]. repeat split; vm_compute; discriminate.
Defined.
